(** * Two-tier chained hash table: model and verification

    The repository holds two generations of [hash_table.hpp]:

    - the sentinel-key table (keys satisfy the [Key] concept; a slot is empty
      when its key [isNull]); it has [insert], [remove], [get], [grow],
      [make_table] and the copy constructor.  It is modelled in module
      [Sentinel].
    - the optional-slot table (base slots are [std::optional<HashNode>], heap
      slots are [std::unique_ptr<HashNode>]); it has [insert], [get],
      [get_constexpr], [grow], [from_nice_pairs] and [from_pairs].  It is
      modelled in module [Optional].  Its [erase] assigns a
      [std::unique_ptr<HashNode>] to a [std::optional<HashNode>], which no
      assignment operator of [std::optional] accepts: the member function
      cannot be instantiated, has no behaviour, and is left out.

    Both are embedded as executable functions over immutable values: an owning
    pointer chain becomes a recursive value, an array becomes a list whose
    length is the array size, and a method that mutates [*this] becomes a
    function from the old table to the new one.  The heap array of the
    sentinel-key table carries its allocation state as well: [grow] assigns a
    temporary [HeapArray] to it, and the array dies with the temporary. *)

From Stdlib Require Import NArith ZArith Floats Uint63 String Lia.
From stdpp Require Import base option list.

Local Open Scope N_scope.

(** ** Machine arithmetic *)

(** [size_t] is a 64-bit unsigned integer; arithmetic wraps. *)
Definition size_max : N := 2 ^ 64.
Definition wrap (n : N) : N := n mod size_max.

(** [x - 1] on [size_t]. *)
Definition wrap_pred (n : N) : N := if n =? 0 then size_max - 1 else n - 1.

(** Conversion of a [size_t] to [double], rounding to nearest, ties to even.
    Below [2^63] the primitive conversion applies; above, the value is halved
    with a sticky bit first, which leaves the rounding unchanged. *)
Definition size_to_double (n : N) : float :=
  if n <? 2 ^ 63 then PrimFloat.of_uint63 (Uint63.of_Z (Z.of_N n))
  else
    let halved := N.lor (N.shiftr n 1) (N.land n 1) in
    PrimFloat.mul (PrimFloat.of_uint63 (Uint63.of_Z (Z.of_N halved))) 2%float.

(** ** Outcomes of a call *)

(** A call either returns, or throws, or runs into behaviour the language
    leaves undefined (a remainder by zero, an access outside an array), or
    exhausts the recursion budget of the model. *)
Inductive run (A : Type) : Type :=
| Ret (a : A)
| Thrown (what : string)
| Undef
| OutOfFuel.
Arguments Ret {A} & a.
Arguments Thrown {A} what.
Arguments Undef {A}.
Arguments OutOfFuel {A}.

#[export] Instance run_ret : MRet run := @Ret.
#[export] Instance run_bind : MBind run := λ A B f m,
  match m with
  | Ret a => f a
  | Thrown what => Thrown what
  | Undef => Undef
  | OutOfFuel => OutOfFuel
  end.

(** Array element [a[i]]; an index outside the array is undefined. *)
Definition at_index {A : Type} (a : list A) (i : N) : run A :=
  match a !! N.to_nat i with
  | Some x => Ret x
  | None => Undef
  end.

(** [i = h % total]; undefined when [total] is zero. *)
Definition slot_index (h total : N) : run N :=
  if total =? 0 then Undef else Ret (h mod total).

(** ** Keys and values *)

(** The [Key] concept: a hash, an equality test and a null test.  The model
    also needs the value-initialised key [K{}] and the state in which a key is
    left after [std::move]. *)
Class Key (K : Type) : Type := {
  hash : K → N;
  key_eqb : K → K → bool;
  isNull : K → bool;
  key_init : K;
  key_moved : K → K
}.

(** What the table needs of the mapped type: [V{}] and the moved-from state. *)
Class Val (V : Type) : Type := {
  val_init : V;
  val_moved : V → V
}.

(** [IntKey<int>]: the hash is the value converted to [size_t] (sign extended,
    that is, reduced modulo [2^64]); the null key is zero.  The struct is
    trivially copyable, so moving from it leaves it unchanged. *)
Record IntKey : Type := mkIntKey { int_value : Z }.

#[export] Instance IntKey_Key : Key IntKey := {
  hash k := Z.to_N (int_value k mod 2 ^ 64);
  key_eqb a b := (int_value a =? int_value b)%Z;
  isNull k := (int_value k =? 0)%Z;
  key_init := mkIntKey 0;
  key_moved k := k
}.

(** [int] as mapped type. *)
#[export] Instance Z_Val : Val Z := {
  val_init := 0%Z;
  val_moved v := v
}.

(** ** The sentinel-key table *)

Module Sentinel.

Section Table.
Context {K V : Type} `{Key K} `{Val V}.

(** [HashNode<K, V>]: a key, a value and the owned successor. *)
#[warnings="-register-all"]
Inductive HashNode : Type :=
  mkNode { key : K; value : V; next : option HashNode }.

(** [HashNode()] *)
Definition empty_node : HashNode := mkNode key_init val_init None.

Definition isOccupied (n : HashNode) : bool := negb (isNull (key n)).

(** [HeapArray<T>]: the pointer [data] and the field [length].  The array
    behind [data] has [length] slots and is either still allocated ([owned];
    with no slots, [data] is null) or already deleted ([dangling]).  The struct
    deletes [data] in its destructor and declares neither a copy nor a move
    assignment of its own, so an assignment copies the two fields member by
    member.  (The model follows a table through its member calls; what the
    destructor of the table does with a dangling [data] is outside it.) *)
Inductive HeapArray : Type :=
| owned (slots : list HashNode)
| dangling (len : N).

(** [heap = HeapArray<HashNode<K, V>>(n)]: the temporary allocates [n]
    value-initialised slots, the assignment copies its [data] and [length],
    and at the end of the statement the destructor of the temporary deletes
    the array.  The array [heap.data] pointed to before is not deleted, and
    nothing points to it any more. *)
Definition assigned_temporary (n : N) : HeapArray := dangling n.

(** The array behind [data], for an access [heap[i]]: a slot of a deleted
    array can be neither read nor written. *)
Definition heap_slots (h : HeapArray) : run (list HashNode) :=
  match h with
  | owned slots => Ret slots
  | dangling _ => Undef
  end.

(** The slots that can be read. *)
Definition heap_nodes (h : HeapArray) : list HashNode :=
  match h with
  | owned slots => slots
  | dangling _ => []
  end.

(** [HashTable<K, V, BaseSize>], in any state its member functions leave it
    in.  [base] is the [std::array] (its length is the template parameter
    [BaseSize]), [heap] the [HeapArray], [entryCount] the counter. *)
Record State : Type :=
  mkTable { base : list HashNode; heap : HeapArray; entryCount : N }.

(** A table whose heap array is allocated (or absent): the state of a table
    that has not grown.  Statements about every such table quantify over
    [HashTable]; it is read as a [State] wherever a member function is
    applied to it. *)
Record HashTable : Type :=
  allocated { its_base : list HashNode; its_heap : list HashNode; its_count : N }.

Definition state (t : HashTable) : State :=
  mkTable (its_base t) (owned (its_heap t)) (its_count t).

Definition BaseSize (t : State) : N := N.of_nat (length (base t)).

(** The field [heap.length]. *)
Definition heap_length (t : State) : N :=
  match heap t with
  | owned slots => N.of_nat (length slots)
  | dangling len => len
  end.

(** [HashTable()]: every base slot value-initialised, no heap, no entries. *)
Definition new_table (base_size : N) : State :=
  mkTable (replicate (N.to_nat base_size) empty_node) (owned []) 0.

(** [BaseSize + heap.length] *)
Definition totalSize (t : State) : N := wrap (BaseSize t + heap_length t).

(** *** get *)

(** The loop of [get] from a node on: the first occupied node with an equal
    key yields its value. *)
Fixpoint chain_get (n : HashNode) (k : K) : option V :=
  match n with
  | mkNode nk nv nx =>
    if negb (isNull nk) && key_eqb nk k then Some nv
    else match nx with
         | Some n' => chain_get n' k
         | None => None
         end
  end.

(** The slot [(index < BaseSize) ? &base[index] : &heap[index - BaseSize]],
    as far as its node is read. *)
Definition slot_at (t : State) (index : N) : run HashNode :=
  if index <? BaseSize t then at_index (base t) index
  else
    slots ← heap_slots (heap t);
    at_index slots (index - BaseSize t).

(** [get]: [None] is the null pointer. *)
Definition get (t : State) (k : K) : run (option V) :=
  index ← slot_index (hash k) (totalSize t);
  node ← slot_at t index;
  mret (chain_get node k).

(** *** insert and grow *)

(** [while (node->next) node = node->next.get(); node->next = make_unique(...)] *)
Fixpoint chain_append (n : HashNode) (k : K) (v : V) : HashNode :=
  match n with
  | mkNode nk nv None => mkNode nk nv (Some (mkNode k v None))
  | mkNode nk nv (Some n') => mkNode nk nv (Some (chain_append n' k v))
  end.

(** What [insert] does to the slot it selected: an unoccupied head is
    overwritten by [{key, value, nullptr}], an occupied one gets a new tail. *)
Definition place_node (n : HashNode) (k : K) (v : V) : HashNode :=
  if isOccupied n then chain_append n k v else mkNode k v None.

Definition place_in (a : list HashNode) (i : N) (k : K) (v : V)
  : run (list HashNode) :=
  node ← at_index a i;
  mret (<[N.to_nat i := place_node node k v]> a).

(** The part of [insert] after the load check. *)
Definition place (t : State) (k : K) (v : V) : run State :=
  index ← slot_index (hash k) (totalSize t);
  if index <? BaseSize t then
    b ← place_in (base t) index k v;
    mret (mkTable b (heap t) (entryCount t))
  else
    slots ← heap_slots (heap t);
    h ← place_in slots (index - BaseSize t) k v;
    mret (mkTable (base t) (owned h) (entryCount t)).

(** [entryCount > (BaseSize + heap.length) * 0.75], evaluated in [double]. *)
Definition load_exceeded (t : State) : bool :=
  PrimFloat.ltb (PrimFloat.mul (size_to_double (totalSize t)) 0.75%float)
                (size_to_double (entryCount t)).

(** The first loop of [grow] on one base slot: the entries of the leading
    occupied nodes of the chain, in order. *)
Fixpoint drain_chain (n : HashNode) : list (K * V) :=
  match n with
  | mkNode nk nv nx =>
    if isNull nk then []
    else (nk, nv) :: match nx with
                     | Some n' => drain_chain n'
                     | None => []
                     end
  end.

(** The nodes that loop leaves behind: key and value of each visited node are
    moved from, the links stay. *)
Fixpoint drained_chain (n : HashNode) : HashNode :=
  match n with
  | mkNode nk nv nx =>
    if isNull nk then n
    else mkNode (key_moved nk) (val_moved nv)
                match nx with
                | Some n' => Some (drained_chain n')
                | None => None
                end
  end.

(** The second loop of [grow] on one heap slot: the head only. *)
Definition drain_head (n : HashNode) : list (K * V) :=
  if isOccupied n then [(key n, value n)] else [].

(** The second loop of [grow], [for (i = 0; i < heap.length; ++i)]: with a
    length of zero it reads nothing, otherwise it reads every slot. *)
Definition drain_heap (t : State) : run (list (K * V)) :=
  if heap_length t =? 0 then mret []
  else
    slots ← heap_slots (heap t);
    mret (flat_map drain_head slots).

(** [allEntries] as [grow] collects it. *)
Definition collect (t : State) : run (list (K * V)) :=
  heads ← drain_heap t;
  mret (flat_map drain_chain (base t) ++ heads).

(** The table between the reallocation and the reinsertion loop of [grow]. *)
Definition drained (t : State) : State :=
  let newheapLen := if heap_length t =? 0 then 4 else wrap (heap_length t * 2) in
  mkTable (drained_chain <$> base t) (assigned_temporary newheapLen) 0.

(** The reinsertion loop, over whatever [insert] is in force. *)
Fixpoint reinsert (ins : State → K → V → run (State * list string))
    (entries : list (K * V)) (t : State) : run (State * list string) :=
  match entries with
  | [] => mret (t, [])
  | (k, v) :: rest =>
    '(t1, out1) ← ins t k v;
    '(t2, out2) ← reinsert ins rest t1;
    mret (t2, out1 ++ out2)
  end.

(** [grow], with the insert it calls as a parameter.  The second component of
    the result is what was written to [std::cout], one line per element. *)
Definition grow_with (ins : State → K → V → run (State * list string))
    (t : State) : run (State * list string) :=
  allEntries ← collect t;
  '(t', out) ← reinsert ins allEntries (drained t);
  mret (t', "growing"%string :: out).

(** [insert].  [fuel] bounds how deep [insert] and [grow] may call each other. *)
Fixpoint insert (fuel : nat) (t : State) (k : K) (v : V)
  : run (State * list string) :=
  match fuel with
  | O => OutOfFuel
  | S fuel' =>
    let t0 := mkTable (base t) (heap t) (wrap (entryCount t + 1)) in
    '(t1, out) ← (if load_exceeded t0 then grow_with (insert fuel') t0
                  else mret (t0, []));
    t2 ← place t1 k v;
    mret (t2, out)
  end.

Definition grow (fuel : nat) : State → run (State * list string) :=
  grow_with (insert fuel).

(** *** remove *)

(** The search loop of [remove] once it has left the head: [n] is
    [prev->next]; the result is what [prev->next] holds afterwards. *)
Fixpoint unlink (n : HashNode) (k : K) : option HashNode :=
  match n with
  | mkNode nk nv nx =>
    if key_eqb nk k then nx
    else Some (mkNode nk nv match nx with
                            | Some n' => unlink n' k
                            | None => None
                            end)
  end.

(** [remove] on the slot it selected.  A match in the head with a successor
    move-assigns the successor to the head and then calls [node->next.reset()]:
    the head takes key and value of its successor and drops the link it had
    just taken over. *)
Definition remove_node (n : HashNode) (k : K) : HashNode :=
  if key_eqb (key n) k then
    match next n with
    | Some n' => mkNode (key n') (value n') None
    | None => empty_node
    end
  else
    mkNode (key n) (value n) match next n with
                             | Some n' => unlink n' k
                             | None => None
                             end.

Definition remove (t : State) (k : K) : run State :=
  if entryCount t =? 0 then mret t
  else
    let count := wrap_pred (entryCount t) in
    index ← slot_index (hash k) (totalSize t);
    node ← slot_at t index;
    if index <? BaseSize t then
      mret (mkTable (<[N.to_nat index := remove_node node k]> (base t))
                    (heap t) count)
    else
      slots ← heap_slots (heap t);
      mret (mkTable (base t)
                    (owned (<[N.to_nat (index - BaseSize t) := remove_node node k]> slots))
                    count).

(** *** Copy construction *)

(** [HashNode::operator=(const HashNode&)]: key and value are copied and the
    chain is rebuilt node by node. *)
Fixpoint copy_node (other : HashNode) : HashNode :=
  match other with
  | mkNode nk nv nx =>
    mkNode nk nv match nx with
                 | Some n' => Some (copy_node n')
                 | None => None
                 end
  end.

(** The loop [for (i...) heap[i] = other.heap[i]] over the given indices. *)
Fixpoint copy_slots (indices : list nat) (src dst : HeapArray)
  : run HeapArray :=
  match indices with
  | [] => mret dst
  | i :: rest =>
    from ← heap_slots src;
    node ← at_index from (N.of_nat i);
    to ← heap_slots dst;
    _ ← at_index to (N.of_nat i);
    copy_slots rest src (owned (<[i := copy_node node]> to))
  end.

(** [HashTable(const HashTable& other)].  The heap is copied under the test
    [heap.length > 0], which reads the length of the table under
    construction. *)
Definition copy_table (other : State) : run State :=
  let this := mkTable (copy_node <$> base other) (owned []) (entryCount other) in
  if 0 <? heap_length this then
    h ← copy_slots (seq 0 (N.to_nat (heap_length this))) (heap other)
                   (assigned_temporary (heap_length this));
    mret (mkTable (base this) h (entryCount this))
  else mret this.

(** *** make_table *)

(** The message of the [std::logic_error] that [make_table] throws. *)
Definition collision : string := "Compile-time collision detected!".

(** The loop of [make_table] over the remaining entries. *)
Fixpoint fill_table (entries : list (K * V)) (table : State)
  : run State :=
  match entries with
  | [] => mret table
  | (k, v) :: rest =>
    index ← slot_index (hash k) (BaseSize table);
    node ← at_index (base table) index;
    if isOccupied node then Thrown collision
    else fill_table rest
           (mkTable (<[N.to_nat index := mkNode k v None]> (base table))
                    (heap table) (entryCount table))
  end.

Definition make_table (base_size : N) (entries : list (K * V))
  : run State :=
  fill_table entries (new_table base_size).

(** *** Callers and observations *)

(** A caller's loop [for (...) table.insert(key, value);], with the output
    it produces. *)
Definition insert_all (fuel : nat) (pairs : list (K * V)) (t : State)
  : run (State * list string) :=
  reinsert (insert fuel) pairs t.

(** A call of [insert] or of [remove], and a caller's sequence of such calls,
    with the output it produces. *)
Inductive call : Type :=
| call_insert (k : K) (v : V)
| call_remove (k : K).

Fixpoint calls (fuel : nat) (cs : list call) (t : State)
  : run (State * list string) :=
  match cs with
  | [] => mret (t, [])
  | call_insert k v :: rest =>
    '(t1, out1) ← insert fuel t k v;
    '(t2, out2) ← calls fuel rest t1;
    mret (t2, out1 ++ out2)
  | call_remove k :: rest =>
    t1 ← remove t k;
    calls fuel rest t1
  end.

(** The entries a walk over a whole chain meets: every occupied node. *)
Fixpoint chain_entries (n : HashNode) : list (K * V) :=
  match n with
  | mkNode nk nv nx =>
    (if isNull nk then [] else [(nk, nv)])
    ++ match nx with
       | Some n' => chain_entries n'
       | None => []
       end
  end.

(** The entries stored in the base array. *)
Definition base_entries (t : State) : list (K * V) :=
  flat_map chain_entries (base t).

(** All entries stored in the slots that can be read, base slots first. *)
Definition entries (t : State) : list (K * V) :=
  base_entries t ++ flat_map chain_entries (heap_nodes (heap t)).


(** A slot whose head is unoccupied has no chain behind the head. *)
Definition wf_slot (n : HashNode) : Prop :=
  isOccupied n = false → next n = None.

Definition wf_table (t : State) : Prop :=
  Forall wf_slot (base t) ∧ Forall wf_slot (heap_nodes (heap t)).

(** The table as [insert] sees it at its load check. *)
Definition counted (t : State) : State :=
  mkTable (base t) (heap t) (wrap (entryCount t + 1)).

(** Base slot [i] holds an occupied head. *)
Definition taken (t : State) (i : N) : Prop :=
  ∃ n, base t !! N.to_nat i = Some n ∧ isOccupied n = true.

(** The base indices [key.hash() % BaseSize] of a list of entries. *)
Definition base_indices (size : N) (entries : list (K * V)) : list N :=
  (λ e, hash e.1 mod size) <$> entries.

(** The number of nodes of a chain, and the number of those whose key is
    equal to [k]. *)
Fixpoint chain_length (n : HashNode) : nat :=
  match n with
  | mkNode _ _ None => 1
  | mkNode _ _ (Some n') => S (chain_length n')
  end.

Fixpoint chain_count (n : HashNode) (k : K) : nat :=
  match n with
  | mkNode nk _ nx =>
    (if key_eqb nk k then 1 else 0)
    + match nx with
      | Some n' => chain_count n' k
      | None => 0
      end
  end%nat.

End Table.

Arguments HashNode K V : clear implicits.
Arguments HeapArray K V : clear implicits.
Arguments State K V : clear implicits.
Arguments HashTable K V : clear implicits.

(** A list of slots where a [HeapArray] is expected is an allocated array; a
    [HashTable] where a [State] is expected is the state it describes. *)
#[warnings="-uniform-inheritance"]
Coercion owned : list >-> HeapArray.
Coercion state : HashTable >-> State.

End Sentinel.


(** ** The optional-slot table *)

Module Optional.

(** What this table asks of its key type: [std::hash<K>], [operator==], and
    (for the model) the state a key is left in by [std::move]. *)
Class Hashed (K : Type) : Type := {
  std_hash : K → N;
  key_eq : K → K → bool;
  moved_key : K → K
}.

(** [int] keys.  [std::hash<int>] is taken to be the conversion to [size_t],
    as in libstdc++ and libc++. *)
#[export] Instance int_Hashed : Hashed Z := {
  std_hash z := Z.to_N (z mod 2 ^ 64);
  key_eq a b := (a =? b)%Z;
  moved_key z := z
}.

Section Table.
Context {K V : Type} `{Hashed K} `{Val V}.

#[warnings="-register-all"]
Inductive HashNode : Type :=
  mkNode { key : K; value : V; next : option HashNode }.

(** [base_array] holds [std::optional<HashNode>], [heap_array] holds
    [std::unique_ptr<HashNode>]; [None] is [nullopt], respectively the null
    pointer.  [heap_size] is the length of [heap_array]. *)
Record HashTable : Type :=
  mkTable { base_array : list (option HashNode);
            heap_array : list (option HashNode);
            num_entries : N }.

Definition base_size (t : HashTable) : N := N.of_nat (length (base_array t)).
Definition heap_size (t : HashTable) : N := N.of_nat (length (heap_array t)).
Definition total_size (t : HashTable) : N := wrap (base_size t + heap_size t).

Definition new_table (size : N) : HashTable :=
  mkTable (replicate (N.to_nat size) None) [] 0.

(** *** get *)

Fixpoint chain_get (n : HashNode) (k : K) : option V :=
  match n with
  | mkNode nk nv nx =>
    if key_eq nk k then Some nv
    else match nx with
         | Some n' => chain_get n' k
         | None => None
         end
  end.

Definition slot_get (slot : option HashNode) (k : K) : option V :=
  match slot with
  | Some n => chain_get n k
  | None => None
  end.

Definition slot_at (t : HashTable) (index : N) : run (option HashNode) :=
  if index <? base_size t then at_index (base_array t) index
  else at_index (heap_array t) (index - base_size t).

Definition get (t : HashTable) (k : K) : run (option V) :=
  index ← slot_index (std_hash k) (total_size t);
  slot ← slot_at t index;
  mret (slot_get slot k).

(** *** grow *)

(** [a[i] = x], undefined outside the array. *)
Definition store {A : Type} (a : list A) (i : nat) (x : A) : run (list A) :=
  if (i <? length a)%nat then Ret (<[i := x]> a) else Undef.

(** First loop of [grow]: the non-null heap slots move to the same index of
    the new array. *)
Fixpoint move_heap (indices : list nat) (old new : list (option HashNode))
  : run (list (option HashNode)) :=
  match indices with
  | [] => mret new
  | i :: rest =>
    slot ← at_index old (N.of_nat i);
    match slot with
    | Some n => new' ← store new i (Some n); move_heap rest old new'
    | None => move_heap rest old new
    end
  end.

(** Second loop of [grow]: the node of every engaged base slot [i] is
    move-constructed into slot [i] of the new heap array; the base slot stays
    engaged and keeps the moved-from node. *)
Fixpoint move_base (indices : list nat) (b new : list (option HashNode))
  : run (list (option HashNode) * list (option HashNode)) :=
  match indices with
  | [] => mret (b, new)
  | i :: rest =>
    slot ← at_index b (N.of_nat i);
    match slot with
    | Some n =>
      new' ← store new i (Some n);
      move_base rest
        (<[i := Some (mkNode (moved_key (key n)) (val_moved (value n)) None)]> b)
        new'
    | None => move_base rest b new
    end
  end.

Definition grow (t : HashTable) : run HashTable :=
  let new_heap_size := wrap (heap_size t * 2 + 10) in
  new ← move_heap (seq 0 (length (heap_array t))) (heap_array t)
                  (replicate (N.to_nat new_heap_size) None);
  '(b, new') ← move_base (seq 0 (length (base_array t))) (base_array t) new;
  mret (mkTable b new' (num_entries t)).

(** *** insert *)

(** [n > 0.7 * total], evaluated in [double]; the literal is the double
    nearest to 0.7. *)
Definition load_exceeded (n total : N) : bool :=
  PrimFloat.ltb (PrimFloat.mul 0x1.6666666666666p-1%float (size_to_double total))
                (size_to_double n).

(** A base slot: an empty one is emplaced, an engaged one gets the new node
    linked in right behind its head. *)
Definition place_base (slot : option HashNode) (k : K) (v : V) : option HashNode :=
  match slot with
  | None => Some (mkNode k v None)
  | Some n => Some (mkNode (key n) (value n) (Some (mkNode k v (next n))))
  end.

(** A heap slot: the new node becomes the head of the chain. *)
Definition place_heap (slot : option HashNode) (k : K) (v : V) : option HashNode :=
  Some (mkNode k v slot).

Definition place (t : HashTable) (k : K) (v : V) : run HashTable :=
  index ← slot_index (std_hash k) (total_size t);
  slot ← slot_at t index;
  if index <? base_size t then
    mret (mkTable (<[N.to_nat index := place_base slot k v]> (base_array t))
                  (heap_array t) (num_entries t))
  else
    mret (mkTable (base_array t)
                  (<[N.to_nat (index - base_size t) := place_heap slot k v]> (heap_array t))
                  (num_entries t)).

Definition insert (t : HashTable) (k : K) (v : V) : run HashTable :=
  let t0 := mkTable (base_array t) (heap_array t) (wrap (num_entries t + 1)) in
  t1 ← (if load_exceeded (num_entries t0) (total_size t0) then grow t0
        else mret t0);
  place t1 k v.

(** *** from_nice_pairs and from_pairs *)

(** The message of the [std::runtime_error] that [from_nice_pairs] throws. *)
Definition collision : string :=
  "Collision detected during constexpr construction.".

Fixpoint fill_table (pairs : list (K * V)) (table : HashTable) : run HashTable :=
  match pairs with
  | [] => mret table
  | (k, v) :: rest =>
    index ← slot_index (std_hash k) (base_size table);
    slot ← at_index (base_array table) index;
    match slot with
    | None =>
      fill_table rest
        (mkTable (<[N.to_nat index := Some (mkNode k v None)]> (base_array table))
                 (heap_array table) (wrap (num_entries table + 1)))
    | Some _ => Thrown collision
    end
  end.

Definition from_nice_pairs (size : N) (pairs : list (K * V)) : run HashTable :=
  fill_table pairs (new_table size).

Fixpoint insert_all (pairs : list (K * V)) (table : HashTable) : run HashTable :=
  match pairs with
  | [] => mret table
  | (k, v) :: rest => table' ← insert table k v; insert_all rest table'
  end.

Definition from_pairs (size : N) (pairs : list (K * V)) : run HashTable :=
  insert_all pairs (new_table size).

(** *** Observations *)

Fixpoint chain_entries (n : HashNode) : list (K * V) :=
  match n with
  | mkNode nk nv nx =>
    (nk, nv) :: match nx with
                | Some n' => chain_entries n'
                | None => []
                end
  end.

Definition slot_entries (slot : option HashNode) : list (K * V) :=
  match slot with
  | Some n => chain_entries n
  | None => []
  end.

(** All entries stored in the table, base slots first. *)
Definition entries (t : HashTable) : list (K * V) :=
  flat_map slot_entries (base_array t) ++ flat_map slot_entries (heap_array t).

(** The table as [insert] sees it at its load check. *)
Definition counted (t : HashTable) : HashTable :=
  mkTable (base_array t) (heap_array t) (wrap (num_entries t + 1)).

(** Base slot [i] is engaged. *)
Definition engaged (t : HashTable) (i : N) : Prop :=
  ∃ n, base_array t !! N.to_nat i = Some (Some n).


(** The base indices [std::hash<K>{}(key) % base_size] of a list of pairs. *)
Definition base_indices (size : N) (pairs : list (K * V)) : list N :=
  (λ e, std_hash e.1 mod size) <$> pairs.

(** The slot that [place] selected, as it leaves it. *)
Definition placed (t : HashTable) (index : N) (slot : option HashNode)
    (k : K) (v : V) : option HashNode :=
  if index <? base_size t then place_base slot k v else place_heap slot k v.

(** *** get_constexpr *)

(** The lookup restricted to the base array: the index is taken modulo
    [base_size] alone. *)
Definition get_constexpr (t : HashTable) (k : K) : run (option V) :=
  index ← slot_index (std_hash k) (base_size t);
  if index <? base_size t then
    slot ← at_index (base_array t) index;
    mret (slot_get slot k)
  else mret None.

End Table.

Arguments HashNode K V : clear implicits.
Arguments HashTable K V : clear implicits.

End Optional.

(** ** The keys and values of the test programs *)

(** The sentinel-key table is exercised with [IntKey<int>] keys and [int]
    values, the optional-slot table with [int] keys. *)
Definition ik (z : Z) : IntKey := mkIntKey z.

(** The entry the test driver inserts for key [z]: the value is [z * 100]. *)
Definition entry (z : Z) : IntKey * Z := (mkIntKey z, (z * 100)%Z).

(** A table of base size [size] after inserting the entries of [keys] in this
    order, and the outcome of a [get] on it. *)
Definition table_after (size : N) (keys : list Z)
  : run (Sentinel.State IntKey Z * list string) :=
  Sentinel.insert_all 2 (entry <$> keys) (Sentinel.new_table size).

Definition get_after (size : N) (keys : list Z) (z : Z) : run (option Z) :=
  '(t, _) ← table_after size keys; Sentinel.get t (ik z).

(** The calls [insert(z, z * 100); remove(99)] for each key [z] in turn.  Key
    99 is never inserted. *)
Definition uncounted (keys : list Z) : list (Sentinel.call (K := IntKey) (V := Z)) :=
  flat_map (λ z, [Sentinel.call_insert (ik z) (z * 100)%Z;
                  Sentinel.call_remove (ik 99)]) keys.

(** Tables for the examples.  Sentinel-key tables: base size 2 holding key 1;
    base size 10 holding keys 1 and 11, which share slot 1.  Optional-slot
    tables: base size 10 holding keys 1 and 11; base size 12 holding keys 1 to
    7 and 11, one insert away from the load limit. *)
Definition one_key_table : Sentinel.HashTable IntKey Z :=
  Sentinel.allocated
    [Sentinel.empty_node; Sentinel.mkNode (ik 1) 100%Z None] [] 1.

Definition chained_table : Sentinel.HashTable IntKey Z :=
  Sentinel.allocated
    (<[1%nat := Sentinel.mkNode (ik 1) 100%Z
                  (Some (Sentinel.mkNode (ik 11) 1100%Z None))]>
       (replicate 10 Sentinel.empty_node))
    [] 2.

Definition optional_chained_table : Optional.HashTable Z Z :=
  Optional.mkTable
    (<[1%nat := Some (Optional.mkNode 1%Z 100%Z
                        (Some (Optional.mkNode 11%Z 1100%Z None)))]>
       (replicate 10 None))
    [] 2.

Definition optional_wide_table : Optional.HashTable Z Z :=
  let single z := Some (Optional.mkNode z (z * 100)%Z None) in
  Optional.mkTable
    [None; single 1%Z; single 2%Z; single 3%Z; single 4%Z; single 5%Z;
     single 6%Z; single 7%Z; None; None; None; single 11%Z]
    [] 8.

(** * Verification *)

(** ** Outcomes, indices, machine arithmetic *)

Lemma bind_Ret {A B : Type} (m : run A) (f : A → run B) (b : B) :
  m ≫= f = Ret b → ∃ a, m = Ret a ∧ f a = Ret b.
Proof. destruct m; simpl; intros E; try discriminate. eauto. Qed.

Lemma slot_index_Ret h total : total ≠ 0 → slot_index h total = Ret (h mod total).
Proof. intros Ht. unfold slot_index. destruct (N.eqb_spec total 0); [done|done]. Qed.

Lemma slot_index_inv h total i : slot_index h total = Ret i → total ≠ 0 ∧ i = h mod total.
Proof.
  unfold slot_index. destruct (N.eqb_spec total 0); intros E; [discriminate|].
  by injection E as <-.
Qed.

Lemma at_index_Ret {A : Type} (a : list A) (i : N) :
  i < N.of_nat (length a) → ∃ x, at_index a i = Ret x ∧ a !! N.to_nat i = Some x.
Proof.
  intros Hi. unfold at_index.
  destruct (a !! N.to_nat i) as [x|] eqn:E; [eauto|].
  apply lookup_ge_None in E. lia.
Qed.

Lemma at_index_inv {A : Type} (a : list A) (i : N) x :
  at_index a i = Ret x → a !! N.to_nat i = Some x.
Proof. unfold at_index. destruct (a !! N.to_nat i); intros E; congruence. Qed.

Lemma wrap_le n : wrap n ≤ n.
Proof. unfold wrap. apply N.Div0.mod_le. Qed.

Lemma wrap_small n : n < size_max → wrap n = n.
Proof. apply N.mod_small. Qed.

(** ** The sentinel-key table *)

Module SentinelFacts.
Import Sentinel.
Section Facts.
Context {K V : Type} `{Key K} `{Val V}.
Implicit Types (n : HashNode K V) (t : State K V) (k : K) (v : V).
Implicit Types (slots : list (HashNode K V)).

Lemma chain_ind (P : HashNode K V → Prop) :
  (∀ k v, P (mkNode k v None)) →
  (∀ k v n, P n → P (mkNode k v (Some n))) →
  ∀ n, P n.
Proof.
  intros Hlast Hlink. fix IH 1.
  intros [k v [n|]]; [apply Hlink, IH | apply Hlast].
Qed.

(** *** The heap array *)

Lemma heap_slots_inv (h : HeapArray K V) slots :
  heap_slots h = Ret slots → h = owned slots.
Proof. destruct h; simpl; intros E; [by injection E as ->|discriminate]. Qed.

(** A slot of the heap array is read only if the array is allocated. *)
Lemma slot_at_heap t index n :
  slot_at t index = Ret n → BaseSize t ≤ index →
  ∃ slots, heap t = owned slots ∧ slots !! N.to_nat (index - BaseSize t) = Some n.
Proof.
  unfold slot_at. destruct (N.ltb_spec index (BaseSize t)); [lia|].
  intros (slots & ->%heap_slots_inv & Hn%at_index_inv)%bind_Ret _. eauto.
Qed.

(** Once the array is deleted, every index of the heap range is out of
    reach. *)
Lemma slot_at_dangling t (len index : N) :
  heap t = dangling len → BaseSize t ≤ index → slot_at t index = Undef.
Proof.
  intros Hh Hi. unfold slot_at. rewrite Hh.
  by destruct (N.ltb_spec index (BaseSize t)); [lia|].
Qed.

(** Every index below [totalSize] selects a slot of a table whose heap array
    is allocated. *)
Lemma slot_at_defined t slots index :
  heap t = owned slots → index < totalSize t → ∃ n, slot_at t index = Ret n.
Proof.
  intros Hh Hi. unfold slot_at. unfold totalSize, heap_length in Hi.
  rewrite Hh in *. simpl.
  pose proof (wrap_le (BaseSize t + N.of_nat (length slots))) as Hw.
  destruct (N.ltb_spec index (BaseSize t)) as [Hlt|Hge].
  - destruct (at_index_Ret (base t) index) as (n & -> & _); [done|eauto].
  - destruct (at_index_Ret slots (index - BaseSize t)) as (n & -> & _); [lia|eauto].
Qed.

Lemma get_defined t slots k :
  heap t = owned slots → totalSize t ≠ 0 →
  ∃ n, slot_at t (hash k mod totalSize t) = Ret n ∧ get t k = Ret (chain_get n k).
Proof.
  intros Hh Ht. destruct (slot_at_defined t slots (hash k mod totalSize t) Hh) as [n Hn].
  { by apply N.mod_lt. }
  exists n. split; [done|]. unfold get. rewrite slot_index_Ret by done. simpl.
  by rewrite Hn.
Qed.

Section NullKey.
Hypothesis eqb_null : ∀ a b : K, key_eqb a b = true → isNull a = isNull b.


End NullKey.


Lemma totalSize_eq t t' :
  BaseSize t' = BaseSize t → heap_length t' = heap_length t →
  totalSize t' = totalSize t.
Proof. unfold totalSize. by intros -> ->. Qed.

Lemma index_in_heap t (i : N) :
  i < totalSize t → BaseSize t ≤ i → i - BaseSize t < heap_length t.
Proof.
  unfold totalSize. pose proof (wrap_le (BaseSize t + heap_length t)). lia.
Qed.

(** *** Writing one slot *)

Lemma base_slot_written t (i : N) n (count : N) :
  i < BaseSize t →
  let t' := mkTable (<[N.to_nat i := n]> (base t)) (heap t) count in
  slot_at t' i = Ret n ∧
  (∀ j, j ≠ i → slot_at t' j = slot_at t j) ∧
  BaseSize t' = BaseSize t ∧ heap_length t' = heap_length t.
Proof.
  intros Hi t'. unfold slot_at, BaseSize, heap_length in *. simpl.
  rewrite length_insert. split_and!; try done.
  - destruct (N.ltb_spec i (N.of_nat (length (base t)))); [|lia].
    unfold at_index. rewrite list_lookup_insert_eq; [done|lia].
  - intros j Hj. destruct (j <? _); [|done].
    unfold at_index. rewrite list_lookup_insert_ne; [done|lia].
Qed.

Lemma heap_slot_written t slots (i : N) n (count : N) :
  heap t = owned slots →
  BaseSize t ≤ i → i - BaseSize t < heap_length t →
  let t' := mkTable (base t) (owned (<[N.to_nat (i - BaseSize t) := n]> slots)) count in
  slot_at t' i = Ret n ∧
  (∀ j, j ≠ i → slot_at t' j = slot_at t j) ∧
  BaseSize t' = BaseSize t ∧ heap_length t' = heap_length t.
Proof.
  intros Hh Hi Hlen t'. unfold slot_at, BaseSize, heap_length in *.
  rewrite Hh in *. simpl.
  rewrite length_insert. split_and!; try done.
  - destruct (N.ltb_spec i (N.of_nat (length (base t)))); [lia|].
    unfold at_index. rewrite list_lookup_insert_eq; [done|lia].
  - intros j Hj. destruct (N.ltb_spec j (N.of_nat (length (base t)))); [done|].
    unfold at_index. rewrite list_lookup_insert_ne; [done|lia].
Qed.

(** *** place *)

(** [place] in full: which slot it rewrites and what it leaves alone. *)
Lemma place_frame t t' k v :
  place t k v = Ret t' →
  totalSize t ≠ 0 ∧
  ∃ n, slot_at t (hash k mod totalSize t) = Ret n ∧
       slot_at t' (hash k mod totalSize t) = Ret (place_node n k v) ∧
       (∀ j, j ≠ hash k mod totalSize t → slot_at t' j = slot_at t j) ∧
       BaseSize t' = BaseSize t ∧ heap_length t' = heap_length t ∧
       entryCount t' = entryCount t.
Proof.
  unfold place, place_in. intros (index & [Ht ->]%slot_index_inv & Hrest)%bind_Ret.
  split; [done|]. set (index := hash k mod totalSize t) in *.
  assert (index < totalSize t) as Hi by (by apply N.mod_lt).
  unfold slot_at at 1.
  destruct (N.ltb_spec index (BaseSize t)) as [Hlt|Hge].
  - apply bind_Ret in Hrest as (b & (n & Hn & [= <-])%bind_Ret & [= <-]).
    exists n. split; [done|].
    destruct (base_slot_written t index (place_node n k v) (entryCount t) Hlt)
      as (? & ? & ? & ?). done.
  - apply bind_Ret in Hrest as (slots & Hslots & Hrest).
    rewrite Hslots. simpl. apply heap_slots_inv in Hslots.
    apply bind_Ret in Hrest as (b & (n & Hn & [= <-])%bind_Ret & [= <-]).
    exists n. split; [done|].
    destruct (heap_slot_written t slots index (place_node n k v) (entryCount t)
                Hslots Hge) as (? & ? & ? & ?); [by apply index_in_heap|]. done.
Qed.

(** [place] keeps a deleted heap array as it is, and an allocated one
    allocated. *)
Lemma place_heap_kind t t' k v :
  place t k v = Ret t' →
  (∀ len, heap t = dangling len → heap t' = dangling len) ∧
  (∀ slots, heap t = owned slots → ∃ slots', heap t' = owned slots').
Proof.
  unfold place, place_in. intros (index & _ & Hrest)%bind_Ret.
  destruct (index <? BaseSize t).
  - apply bind_Ret in Hrest as (b & _ & [= <-]). simpl. eauto.
  - apply bind_Ret in Hrest as (slots & ->%heap_slots_inv & Hrest).
    apply bind_Ret in Hrest as (b & _ & [= <-]). simpl. split; [done|eauto].
Qed.


(** [place] returns as soon as the slot it selects can be read. *)
Lemma place_returns t k v n :
  totalSize t ≠ 0 → slot_at t (hash k mod totalSize t) = Ret n →
  ∃ t', place t k v = Ret t'.
Proof.
  intros Ht Hn. unfold place, place_in. rewrite slot_index_Ret by done. simpl.
  unfold slot_at in Hn.
  destruct (N.ltb_spec (hash k mod totalSize t) (BaseSize t)) as [Hlt|Hge].
  - rewrite Hn. simpl. eauto.
  - apply bind_Ret in Hn as (slots & Hs & Hn). rewrite Hs. simpl. rewrite Hn.
    simpl. eauto.
Qed.





Lemma get_found_inv t k r :
  get t k = Ret r →
  totalSize t ≠ 0 ∧
  ∃ n, slot_at t (hash k mod totalSize t) = Ret n ∧ r = chain_get n k.
Proof.
  unfold get. intros (i & [Ht ->]%slot_index_inv & Hrest)%bind_Ret.
  apply bind_Ret in Hrest as (n & Hn & [= <-]). eauto.
Qed.

(** *** Chains *)







Lemma chain_get_append_new n k v :
  isNull k = false → key_eqb k k = true →
  chain_get n k = None → chain_get (chain_append n k v) k = Some v.
Proof.
  intros Hk Hrefl. induction n as [nk nv|nk nv n IH] using chain_ind; simpl.
  - destruct (negb (isNull nk) && key_eqb nk k); [done|]. by rewrite Hk, Hrefl.
  - by destruct (negb (isNull nk) && key_eqb nk k).
Qed.

Lemma chain_get_place_new n k v :
  isNull k = false → key_eqb k k = true →
  chain_get n k = None → chain_get (place_node n k v) k = Some v.
Proof.
  intros Hk Hrefl Hn. unfold place_node. destruct (isOccupied n).
  - by apply chain_get_append_new.
  - simpl. by rewrite Hk, Hrefl.
Qed.



Lemma wf_slot_at t index n : wf_table t → slot_at t index = Ret n → wf_slot n.
Proof.
  intros [Hb Hh]. unfold slot_at.
  destruct (index <? BaseSize t).
  - intros Hn%at_index_inv. by eapply (Forall_lookup_1 _ _ _ _ Hb).
  - intros (slots & Hs%heap_slots_inv & Hn%at_index_inv)%bind_Ret.
    rewrite Hs in Hh. by eapply (Forall_lookup_1 _ _ _ _ Hh).
Qed.


(** *** What [place] does to lookups *)

Lemma get_place t t' k v k0 :
  place t k v = Ret t' →
  ∃ n, slot_at t (hash k mod totalSize t) = Ret n ∧
    get t' k0 =
      if hash k0 mod totalSize t =? hash k mod totalSize t
      then Ret (chain_get (place_node n k v) k0)
      else get t k0.
Proof.
  intros (Ht & n & Hn & Hn' & Hother & Hb & Hh & _)%place_frame.
  exists n. split; [done|].
  pose proof (totalSize_eq _ _ Hb Hh) as Hs.
  unfold get. rewrite Hs, slot_index_Ret by done. simpl.
  destruct (N.eqb_spec (hash k0 mod totalSize t) (hash k mod totalSize t)) as [->|Hne].
  - by rewrite Hn'.
  - by rewrite (Hother _ Hne).
Qed.



(** *** Inserts that do not grow *)


Lemma insert_without_growth fuel t k v :
  load_exceeded (counted t) = false →
  insert (S fuel) t k v = place (counted t) k v ≫= λ t', mret (t', []).
Proof. intros Hload. simpl. fold (counted t). by rewrite Hload. Qed.

Lemma get_counted t k : get (counted t) k = get t k.
Proof. reflexivity. Qed.


(** *** More budget *)

Lemma reinsert_mono (ins ins' : State K V → K → V → run (State K V * list string))
    (pairs : list (K * V)) :
  (∀ t k v, ins t k v ≠ OutOfFuel → ins' t k v = ins t k v) →
  ∀ t, reinsert ins pairs t ≠ OutOfFuel → reinsert ins' pairs t = reinsert ins pairs t.
Proof.
  intros Hins. induction pairs as [|[k v] pairs IH]; intros t; simpl; [done|].
  destruct (ins t k v) as [[t1 out1]| | |] eqn:H1; simpl; intros Hrun; try done.
  - rewrite (Hins t k v) by (by rewrite H1). rewrite H1. simpl.
    destruct (reinsert ins pairs t1) as [[t2 out2]| | |] eqn:H2; simpl in *;
      try done; rewrite (IH t1) by (by rewrite H2); by rewrite H2.
  - rewrite (Hins t k v) by (by rewrite H1). by rewrite H1.
  - rewrite (Hins t k v) by (by rewrite H1). by rewrite H1.
Qed.

(** More budget never changes an outcome other than running out of it. *)
Lemma insert_fuel_mono fuel : ∀ t k v,
  insert fuel t k v ≠ OutOfFuel → insert (S fuel) t k v = insert fuel t k v.
Proof.
  induction fuel as [|fuel IH]; intros t k v; [done|].
  change (insert (S fuel) t k v) with
    ((if load_exceeded (counted t) then grow_with (insert fuel) (counted t)
      else mret (counted t, [])) ≫= λ '(t1, out), place t1 k v ≫= λ t2, mret (t2, out)).
  change (insert (S (S fuel)) t k v) with
    ((if load_exceeded (counted t) then grow_with (insert (S fuel)) (counted t)
      else mret (counted t, [])) ≫= λ '(t1, out), place t1 k v ≫= λ t2, mret (t2, out)).
  destruct (load_exceeded (counted t)); [|done].
  unfold grow_with. destruct (collect (counted t)) as [allEntries| | |]; simpl; try done.
  intros Hrun.
  rewrite (reinsert_mono _ _ _ IH); [done|].
  intros Hout. by rewrite Hout in Hrun.
Qed.

Lemma insert_more_fuel fuel more t k v :
  insert fuel t k v ≠ OutOfFuel → insert (more + fuel) t k v = insert fuel t k v.
Proof.
  intros Hrun. induction more as [|more IH]; [done|].
  change (S more + fuel)%nat with (S (more + fuel)).
  rewrite insert_fuel_mono; [done|]. by rewrite IH.
Qed.

(** *** The slot invariant *)

Lemma wf_place_node n k v : wf_slot (place_node n k v).
Proof.
  unfold place_node, wf_slot. destruct (isOccupied n) eqn:Ho; [|done].
  destruct n as [nk nv [n'|]]; simpl; unfold isOccupied in *; simpl in *; congruence.
Qed.

Lemma wf_remove_node n k : wf_slot n → wf_slot (remove_node n k).
Proof.
  unfold remove_node, wf_slot. intros Hwf.
  destruct (key_eqb (key n) k).
  - by destruct (next n).
  - unfold isOccupied in *. simpl. intros Ho. by rewrite (Hwf Ho).
Qed.

Lemma wf_new_table (size : N) : wf_table (new_table (K := K) (V := V) size).
Proof.
  split; simpl; [|constructor]. apply Forall_replicate. by intros _.
Qed.

Lemma wf_place t t' k v : wf_table t → place t k v = Ret t' → wf_table t'.
Proof.
  intros [Hb Hh]. unfold place, place_in.
  intros (index & _ & Hrest)%bind_Ret.
  destruct (index <? BaseSize t).
  - apply bind_Ret in Hrest as (b & (n & _ & [= <-])%bind_Ret & [= <-]).
    split; simpl; [|done]. apply Forall_insert; [done|]. apply wf_place_node.
  - apply bind_Ret in Hrest as (slots & Hs%heap_slots_inv & Hrest).
    apply bind_Ret in Hrest as (b & (n & _ & [= <-])%bind_Ret & [= <-]).
    rewrite Hs in Hh.
    split; simpl; [done|]. apply Forall_insert; [done|]. apply wf_place_node.
Qed.

Lemma wf_remove t t' k : wf_table t → remove t k = Ret t' → wf_table t'.
Proof.
  intros Hwf. pose proof Hwf as [Hb Hh]. unfold remove. destruct (entryCount t =? 0).
  { by intros [= <-]. }
  intros (index & _ & Hrest)%bind_Ret.
  apply bind_Ret in Hrest as (n & Hn & Hrest).
  assert (wf_slot n) as Hwfn by (by eapply wf_slot_at).
  destruct (index <? BaseSize t).
  - injection Hrest as <-. split; simpl; [|done].
    apply Forall_insert; [done|]. by apply wf_remove_node.
  - apply bind_Ret in Hrest as (slots & Hs%heap_slots_inv & [= <-]).
    rewrite Hs in Hh. split; simpl; [done|].
    apply Forall_insert; [done|]. by apply wf_remove_node.
Qed.

Section Moved.
(** Moving from a key does not change whether it is null (as for the
    trivially copyable key types). *)
Hypothesis moved_null : ∀ k : K, isNull (key_moved k) = isNull k.

Lemma wf_drained_chain n : wf_slot n → wf_slot (drained_chain n).
Proof.
  destruct n as [nk nv nx]. unfold wf_slot, isOccupied. simpl.
  destruct (isNull nk) eqn:Hk; simpl.
  - rewrite Hk. simpl. intros Hnx _. by apply Hnx.
  - rewrite moved_null, Hk. simpl. intros _ ?. discriminate.
Qed.

(** The heap array of the drained table is deleted: the invariant is left
    with the base slots. *)
Lemma wf_drained t : wf_table t → wf_table (drained t).
Proof.
  intros [Hb _]. split; simpl; [|constructor].
  apply Forall_fmap. eapply Forall_impl; [exact Hb|]. apply wf_drained_chain.
Qed.

Lemma wf_reinsert ins (pairs : list (K * V)) :
  (∀ t k v t' out, wf_table t → ins t k v = Ret (t', out) → wf_table t') →
  ∀ t t' out, wf_table t → reinsert ins pairs t = Ret (t', out) → wf_table t'.
Proof.
  intros Hins. induction pairs as [|[k v] pairs IH]; intros t t' out Hwf; simpl.
  - by intros [= <- _].
  - intros ([t1 out1] & H1 & Hrest)%bind_Ret.
    apply bind_Ret in Hrest as ([t2 out2] & H2 & [= <- _]).
    eapply IH; [|exact H2]. by eapply Hins.
Qed.

(** Every call of [insert] that returns preserves the invariant, growth
    included. *)
Lemma wf_insert fuel : ∀ t k v t' out,
  wf_table t → insert fuel t k v = Ret (t', out) → wf_table t'.
Proof.
  induction fuel as [|fuel IH]; intros t k v t' out Hwf; [done|].
  simpl. fold (counted t).
  intros ([t1 out1] & Hgrow & Hrest)%bind_Ret.
  apply bind_Ret in Hrest as (t2 & Hplace & [= <- _]).
  eapply wf_place; [|exact Hplace].
  assert (wf_table (counted t)) as Hwf0 by (by destruct Hwf).
  destruct (load_exceeded (counted t)).
  - unfold grow_with in Hgrow.
    apply bind_Ret in Hgrow as (allEntries & _ & Hgrow).
    apply bind_Ret in Hgrow as ([t3 out3] & Hre & [= <- _]).
    eapply (wf_reinsert _ _ IH); [|exact Hre]. by apply wf_drained.
  - by injection Hgrow as <- _.
Qed.
End Moved.

(** *** Sizes *)

Lemma BaseSize_drained t : BaseSize (drained t) = BaseSize t.
Proof. unfold BaseSize, drained. simpl. by rewrite length_fmap. Qed.

Lemma BaseSize_reinsert ins (pairs : list (K * V)) :
  (∀ t k v t' out, ins t k v = Ret (t', out) → BaseSize t' = BaseSize t) →
  ∀ t t' out, reinsert ins pairs t = Ret (t', out) → BaseSize t' = BaseSize t.
Proof.
  intros Hins. induction pairs as [|[k v] pairs IH]; intros t t' out; simpl.
  - by intros [= <- _].
  - intros ([t1 out1] & H1 & Hrest)%bind_Ret.
    apply bind_Ret in Hrest as ([t2 out2] & H2 & [= <- _]).
    rewrite (IH _ _ _ H2). by eapply Hins.
Qed.

Lemma BaseSize_insert fuel : ∀ t k v t' out,
  insert fuel t k v = Ret (t', out) → BaseSize t' = BaseSize t.
Proof.
  induction fuel as [|fuel IH]; intros t k v t' out; [done|].
  simpl. fold (counted t).
  intros ([t1 out1] & Hgrow & Hrest)%bind_Ret.
  apply bind_Ret in Hrest as (t2 & Hplace & [= <- _]).
  apply place_frame in Hplace as (_ & n & _ & _ & _ & -> & _).
  destruct (load_exceeded (counted t)).
  - unfold grow_with in Hgrow.
    apply bind_Ret in Hgrow as (allEntries & _ & Hgrow).
    apply bind_Ret in Hgrow as ([t3 out3] & Hre & [= <- _]).
    rewrite (BaseSize_reinsert _ _ IH _ _ _ Hre). exact (BaseSize_drained (counted t)).
  - by injection Hgrow as <- _.
Qed.

(** *** remove *)

Lemma remove_frame t t' k :
  entryCount t ≠ 0 → remove t k = Ret t' →
  totalSize t ≠ 0 ∧
  ∃ n, slot_at t (hash k mod totalSize t) = Ret n ∧
       slot_at t' (hash k mod totalSize t) = Ret (remove_node n k) ∧
       (∀ j, j ≠ hash k mod totalSize t → slot_at t' j = slot_at t j) ∧
       BaseSize t' = BaseSize t ∧ heap_length t' = heap_length t ∧
       entryCount t' = entryCount t - 1.
Proof.
  intros Hcount. unfold remove. destruct (N.eqb_spec (entryCount t) 0) as [?|_]; [done|].
  intros (index & [Ht ->]%slot_index_inv & Hrest)%bind_Ret.
  split; [done|]. set (index := hash k mod totalSize t) in *.
  assert (index < totalSize t) as Hi by (by apply N.mod_lt).
  apply bind_Ret in Hrest as (n & Hn & Hrest). exists n. split; [done|].
  assert (wrap_pred (entryCount t) = entryCount t - 1) as Hpred.
  { unfold wrap_pred. by destruct (N.eqb_spec (entryCount t) 0). }
  destruct (N.ltb_spec index (BaseSize t)) as [Hlt|Hge].
  - injection Hrest as <-.
    destruct (base_slot_written t index (remove_node n k)
                (wrap_pred (entryCount t)) Hlt) as (? & ? & ? & ?). done.
  - apply bind_Ret in Hrest as (slots & Hs%heap_slots_inv & [= <-]).
    destruct (heap_slot_written t slots index (remove_node n k)
                (wrap_pred (entryCount t)) Hs Hge) as (? & ? & ? & ?);
      [by apply index_in_heap|]. done.
Qed.

Lemma remove_returns t k n :
  totalSize t ≠ 0 → slot_at t (hash k mod totalSize t) = Ret n →
  ∃ t', remove t k = Ret t'.
Proof.
  intros Ht Hn. unfold remove. destruct (entryCount t =? 0); [eauto|].
  rewrite slot_index_Ret by done. simpl. rewrite Hn. simpl.
  destruct (N.ltb_spec (hash k mod totalSize t) (BaseSize t)) as [|Hge]; [eauto|].
  destruct (slot_at_heap _ _ _ Hn Hge) as (slots & -> & _). simpl. eauto.
Qed.

Lemma chain_count_zero n k : chain_count n k = 0%nat → chain_get n k = None.
Proof.
  induction n as [nk nv|nk nv n IH] using chain_ind; simpl.
  - destruct (key_eqb nk k); [done|]. by rewrite andb_false_r.
  - destruct (key_eqb nk k); [done|]. rewrite andb_false_r. simpl. exact IH.
Qed.

Lemma unlink_gone n k :
  (chain_count n k ≤ 1)%nat →
  match unlink n k with
  | Some m => chain_get m k
  | None => None
  end = None.
Proof.
  induction n as [nk nv|nk nv n IH] using chain_ind; simpl.
  - destruct (key_eqb nk k) eqn:He; [done|]. simpl. by rewrite He, andb_false_r.
  - destruct (key_eqb nk k) eqn:He.
    + intros Hc. apply chain_count_zero. lia.
    + simpl. rewrite He, andb_false_r. exact IH.
Qed.

Lemma unlink_other n k k' :
  (∀ a : K, key_eqb a k = true → key_eqb a k' = false) →
  match unlink n k with
  | Some m => chain_get m k'
  | None => None
  end = chain_get n k'.
Proof.
  intros Hdist. induction n as [nk nv|nk nv n IH] using chain_ind; simpl.
  - destruct (key_eqb nk k) eqn:He; [|done].
    by rewrite (Hdist _ He), andb_false_r.
  - destruct (key_eqb nk k) eqn:He.
    + by rewrite (Hdist _ He), andb_false_r.
    + simpl. destruct (negb (isNull nk) && key_eqb nk k'); [done|]. exact IH.
Qed.

Section NullInit.
Hypothesis key_init_null : isNull (key_init (K := K)) = true.

Lemma chain_get_empty_node k : chain_get (empty_node (K := K) (V := V)) k = None.
Proof. simpl. by rewrite key_init_null. Qed.

Lemma remove_node_gone n k :
  (chain_count n k ≤ 1)%nat → chain_get (remove_node n k) k = None.
Proof.
  destruct n as [nk nv nx]. unfold remove_node. simpl.
  destruct (key_eqb nk k) eqn:He.
  - destruct nx as [[k2 v2 nx2]|]; [|intros _; apply chain_get_empty_node].
    simpl. destruct (key_eqb k2 k); [lia|]. by rewrite andb_false_r.
  - intros Hc. simpl. rewrite He, andb_false_r. simpl.
    destruct nx as [n'|]; [|done]. apply unlink_gone. simpl in Hc. lia.
Qed.

Lemma remove_node_other n k k' :
  (∀ a : K, key_eqb a k = true → key_eqb a k' = false) →
  (key_eqb (key n) k = true → (chain_length n ≤ 2)%nat) →
  chain_get (remove_node n k) k' = chain_get n k'.
Proof.
  intros Hdist Hhead. destruct n as [nk nv nx]. unfold remove_node. simpl in *.
  destruct (key_eqb nk k) eqn:He.
  - rewrite (Hdist _ He), andb_false_r. specialize (Hhead eq_refl).
    destruct nx as [[k2 v2 [n3|]]|]; simpl in *.
    + destruct n3 as [? ? [?|]]; simpl in Hhead; lia.
    + done.
    + by rewrite key_init_null.
  - simpl. destruct (negb (isNull nk) && key_eqb nk k'); [done|].
    destruct nx as [n'|]; [|done]. by apply unlink_other.
Qed.
End NullInit.

Lemma get_remove t t' k k0 :
  entryCount t ≠ 0 → remove t k = Ret t' →
  ∃ n, slot_at t (hash k mod totalSize t) = Ret n ∧
    get t' k0 =
      if hash k0 mod totalSize t =? hash k mod totalSize t
      then Ret (chain_get (remove_node n k) k0)
      else get t k0.
Proof.
  intros Hcount (Ht & n & Hn & Hn' & Hother & Hb & Hh & _)%remove_frame; [|done].
  exists n. split; [done|].
  pose proof (totalSize_eq _ _ Hb Hh) as Hs.
  unfold get. rewrite Hs, slot_index_Ret by done. simpl.
  destruct (N.eqb_spec (hash k0 mod totalSize t) (hash k mod totalSize t)) as [->|Hne].
  - by rewrite Hn'.
  - by rewrite (Hother _ Hne).
Qed.

(** *** Copies *)

Lemma copy_node_id n : copy_node n = n.
Proof.
  induction n as [nk nv|nk nv n IH] using chain_ind; simpl; [done|].
  by rewrite IH.
Qed.

Lemma copy_table_eq t : copy_table t = Ret (mkTable (base t) [] (entryCount t)).
Proof.
  unfold copy_table. simpl. f_equal. f_equal.
  rewrite <- (list_fmap_id (base t)) at 2. apply list_fmap_ext.
  intros _ n _. apply copy_node_id.
Qed.

(** *** make_table *)

Lemma fill_table_heap (rest : list (K * V)) : ∀ t t',
  fill_table rest t = Ret t' → heap t' = heap t ∧ entryCount t' = entryCount t.
Proof.
  induction rest as [|[k v] rest IH]; intros t t'; simpl.
  - by intros [= <-].
  - intros (i & _ & Hrest)%bind_Ret. apply bind_Ret in Hrest as (n & _ & Hrest).
    destruct (isOccupied n); [discriminate|]. by apply IH in Hrest.
Qed.

Lemma fill_table_BaseSize (rest : list (K * V)) : ∀ t t',
  fill_table rest t = Ret t' → BaseSize t' = BaseSize t.
Proof.
  induction rest as [|[k v] rest IH]; intros t t'; simpl.
  - by intros [= <-].
  - intros (i & _ & Hrest)%bind_Ret. apply bind_Ret in Hrest as (n & _ & Hrest).
    destruct (isOccupied n); [discriminate|]. apply IH in Hrest. rewrite Hrest.
    unfold BaseSize. simpl. by rewrite length_insert.
Qed.

Lemma fill_table_spec (size : N) (rest : list (K * V)) : ∀ t,
  BaseSize t = size → size ≠ 0 →
  Forall (λ e, isNull e.1 = false) rest →
  let indices := base_indices size rest in
  let free := NoDup indices ∧ ∀ i, i ∈ indices → ¬ taken t i in
  (¬ free → fill_table rest t = Thrown collision) ∧
  (free → ∃ t', fill_table rest t = Ret t' ∧ BaseSize t' = size ∧
      (∀ k v, (k, v) ∈ rest →
         base t' !! N.to_nat (hash k mod size) = Some (mkNode k v None)) ∧
      (∀ i, i ∉ indices → base t' !! N.to_nat i = base t !! N.to_nat i)).
Proof.
  induction rest as [|[k v] rest IH]; intros t Hsize Hpos Hnn; simpl.
  - split.
    + intros Hfree. exfalso. apply Hfree. split; [constructor|].
      intros i Hi. by apply elem_of_nil in Hi.
    + intros _. exists t. split_and!; try done. intros k v Hin. by apply elem_of_nil in Hin.
  - apply Forall_cons in Hnn as [Hk Hnn]. simpl in Hk.
    rewrite Hsize, slot_index_Ret by done. simpl.
    set (index := hash k mod size).
    assert (index < size) as Hindex by (by apply N.mod_lt).
    destruct (at_index_Ret (base t) index) as (n & -> & Hn).
    { by rewrite <- Hsize in Hindex. }
    simpl. destruct (isOccupied n) eqn:Ho.
    + split; [done|]. intros [_ Hfree]. exfalso.
      apply (Hfree index); [by left|]. by exists n.
    + set (t1 := mkTable _ _ _).
      assert (BaseSize t1 = size) as Hsize1.
      { unfold BaseSize, t1. simpl. rewrite length_insert. exact Hsize. }
      assert (base t1 !! N.to_nat index = Some (mkNode k v None)) as Hslot.
      { unfold t1. simpl. apply list_lookup_insert_eq. by eapply lookup_lt_Some. }
      assert (∀ j, j ≠ index → base t1 !! N.to_nat j = base t !! N.to_nat j) as Hother.
      { intros j Hj. unfold t1. simpl. apply list_lookup_insert_ne. lia. }
      assert (taken t1 index) as Htaken1.
      { eexists. split; [done|]. unfold isOccupied. simpl. by rewrite Hk. }
      assert (¬ taken t index) as Hfree0.
      { intros (n0 & Hn0 & Ho0). congruence. }
      destruct (IH t1 Hsize1 Hpos Hnn) as [IHthrow IHret]. split.
      * intros Hnot. apply IHthrow. intros [Hnd Hfree]. apply Hnot. split.
        -- apply NoDup_cons. split; [|done]. intros Hin. by apply (Hfree index).
        -- intros j [->|Hj]%elem_of_cons; [done|].
           intros (n0 & Hn0 & Ho0). apply (Hfree j Hj). exists n0. split; [|done].
           rewrite Hother; [done|]. intros ->. by apply (Hfree index).
      * intros [[Hnotin Hnd]%NoDup_cons Hfree].
        destruct IHret as (t' & Hfill & Hsize' & Hplaced & Hkept).
        { split; [done|]. intros j Hj (n0 & Hn0 & Ho0).
          apply (Hfree j); [by right|]. exists n0. split; [|done].
          rewrite <- Hother; [done|]. by intros ->. }
        exists t'. split_and!; try done.
        -- intros k' v' [[= -> ->]|Hin]%elem_of_cons.
           ++ fold index. by rewrite Hkept.
           ++ by apply Hplaced.
        -- intros j Hj. apply not_elem_of_cons in Hj as [Hj1 Hj2].
           rewrite Hkept by done. by apply Hother.
Qed.

Section Laws.
Hypothesis key_eqb_refl : ∀ k, key_eqb k k = true.
Hypothesis key_init_null : isNull (key_init (K:=K)) = true.

Lemma new_table_free (size i : N) : ¬ taken (new_table size) i.
Proof.
  intros (n & Hn & Ho). unfold new_table in Hn. simpl in Hn.
  apply lookup_replicate in Hn as [-> _].
  unfold isOccupied, empty_node in Ho. simpl in Ho. by rewrite key_init_null in Ho.
Qed.

Lemma BaseSize_new_table (size : N) : BaseSize (new_table (K:=K) (V:=V) size) = size.
Proof. unfold BaseSize, new_table. simpl. rewrite length_replicate. lia. Qed.

Theorem make_table_without_null_keys (size : N) (entries : list (K * V)) :
  0 < size < size_max →
  Forall (λ e, isNull e.1 = false) entries →
  let indices := base_indices size entries in
  (make_table size entries = Thrown collision ↔ ¬ NoDup indices) ∧
  (NoDup indices →
     ∃ t, make_table size entries = Ret t ∧ heap t = [] ∧
          ∀ k v, (k, v) ∈ entries → get t k = Ret (Some v)) ∧
  (∀ p s t, entries = p ++ s → make_table size p = Ret t → heap t = []).
Proof.
  intros [Hpos Hmax] Hnn indices.
  assert (size ≠ 0) as Hsize by lia.
  destruct (fill_table_spec size entries (new_table size)
              (BaseSize_new_table size) Hsize Hnn) as [Hthrow Hret].
  assert (NoDup indices →
     ∃ t, make_table size entries = Ret t ∧ heap t = [] ∧
          ∀ k v, (k, v) ∈ entries → get t k = Ret (Some v)) as Hgood.
  { intros Hnd. destruct Hret as (t & Hfill & Hsize' & Hplaced & _).
    { split; [done|]. intros i _. apply new_table_free. }
    exists t. split; [done|].
    destruct (fill_table_heap _ _ _ Hfill) as [Hheap _]. simpl in Hheap.
    split; [done|]. intros k v Hin.
    assert (totalSize t = size) as Htotal.
    { unfold totalSize, heap_length. rewrite Hheap, Hsize'. simpl.
      rewrite N.add_0_r. by apply wrap_small. }
    unfold get. rewrite Htotal, slot_index_Ret by done. simpl.
    unfold slot_at. rewrite Hsize'.
    destruct (N.ltb_spec (hash k mod size) size) as [_|Hge].
    2:{ pose proof (N.mod_lt (hash k) size Hsize). lia. }
    unfold at_index. rewrite (Hplaced k v Hin). simpl.
    apply (proj1 (Forall_forall _ _) Hnn) in Hin. simpl in Hin.
    by rewrite Hin, key_eqb_refl. }
  split_and!; [|done|].
  - split.
    + intros Hth Hnd. destruct (Hgood Hnd) as (t & Ht & _). congruence.
    + intros Hnd. apply Hthrow. by intros [? _].
  - intros p s t _ Hp. by destruct (fill_table_heap _ _ _ Hp) as [-> _].
Qed.
End Laws.

(** *** Growth *)



(** The heap array of a table that has grown is deleted, whatever was
    inserted since. *)
Lemma reinsert_heap_kind ins (pairs : list (K * V)) :
  (∀ t k v t' out (len : N), heap t = dangling len → ins t k v = Ret (t', out) →
     ∃ len', heap t' = dangling len') →
  ∀ t t' out (len : N), heap t = dangling len → reinsert ins pairs t = Ret (t', out) →
    ∃ len', heap t' = dangling len'.
Proof.
  intros Hins. induction pairs as [|[k v] pairs IH]; intros t t' out len Hh; simpl.
  - intros [= <- _]. eauto.
  - intros ([t1 out1] & H1 & Hrest)%bind_Ret.
    apply bind_Ret in Hrest as ([t2 out2] & H2 & [= <- _]).
    destruct (Hins _ _ _ _ _ _ Hh H1) as [len1 Hh1]. by eapply IH.
Qed.

Lemma insert_keeps_dangling fuel : ∀ t k v t' out (len : N),
  heap t = dangling len → insert fuel t k v = Ret (t', out) →
  ∃ len', heap t' = dangling len'.
Proof.
  induction fuel as [|fuel IH]; intros t k v t' out len Hh; [done|].
  simpl. fold (counted t).
  intros ([t1 out1] & Hgrow & Hrest)%bind_Ret.
  apply bind_Ret in Hrest as (t2 & Hplace & [= <- _]).
  apply place_heap_kind in Hplace as [Hkeep _].
  destruct (load_exceeded (counted t)).
  - unfold grow_with in Hgrow.
    apply bind_Ret in Hgrow as (allEntries & _ & Hgrow).
    apply bind_Ret in Hgrow as ([t3 out3] & Hre & [= <- _]).
    destruct (reinsert_heap_kind _ _ IH (drained (counted t)) t3 out3 _ eq_refl Hre)
      as [len3 Hh3].
    eauto.
  - injection Hgrow as <- _. eauto.
Qed.

Lemma insert_grown fuel t t' k v out :
  insert fuel t k v = Ret (t', out) → out ≠ [] →
  ∃ len, heap t' = dangling len.
Proof.
  destruct fuel as [|fuel]; [done|].
  simpl. fold (counted t).
  intros ([t1 out1] & Hgrow & Hrest)%bind_Ret Hout.
  apply bind_Ret in Hrest as (t2 & Hplace & [= <- <-]).
  apply place_heap_kind in Hplace as [Hkeep _].
  destruct (load_exceeded (counted t)); [|by injection Hgrow as _ <-].
  unfold grow_with in Hgrow.
  apply bind_Ret in Hgrow as (allEntries & _ & Hgrow).
  apply bind_Ret in Hgrow as ([t3 out3] & Hre & [= <- _]).
  destruct (reinsert_heap_kind _ _ (insert_keeps_dangling fuel)
              (drained (counted t)) t3 out3 _ eq_refl Hre) as [len3 Hh3].
  eauto.
Qed.

Section Growth.
Hypothesis key_eqb_refl : ∀ k : K, key_eqb k k = true.


End Growth.

End Facts.
End SentinelFacts.

(** ** The optional-slot table *)

Module OptionalFacts.
Import Optional.
Section Facts.
Context {K V : Type} `{Hashed K} `{Val V}.
Implicit Types (n : HashNode K V) (t : HashTable K V) (k : K) (v : V).

Lemma node_ind (P : HashNode K V → Prop) :
  (∀ k v, P (mkNode k v None)) →
  (∀ k v n, P n → P (mkNode k v (Some n))) →
  ∀ n, P n.
Proof.
  intros Hlast Hlink. fix IH 1.
  intros [k v [n|]]; [apply Hlink, IH | apply Hlast].
Qed.

Lemma slot_defined t index :
  index < total_size t → ∃ slot, slot_at t index = Ret slot.
Proof.
  intros Hi. unfold slot_at.
  pose proof (wrap_le (base_size t + heap_size t)) as Hw.
  unfold total_size in Hi.
  destruct (N.ltb_spec index (base_size t)) as [Hlt|Hge].
  - destruct (at_index_Ret (base_array t) index) as (n & -> & _); [done|eauto].
  - destruct (at_index_Ret (heap_array t) (index - base_size t)) as (n & -> & _); [|eauto].
    unfold heap_size in *. lia.
Qed.

Lemma get_inv t k r :
  get t k = Ret r →
  total_size t ≠ 0 ∧
  ∃ slot, slot_at t (std_hash k mod total_size t) = Ret slot ∧ r = slot_get slot k.
Proof.
  unfold get. intros (i & [Ht ->]%slot_index_inv & Hrest)%bind_Ret.
  apply bind_Ret in Hrest as (slot & Hslot & [= <-]). eauto.
Qed.

Lemma place_front_spec t k v :
  total_size t ≠ 0 →
  let index := std_hash k mod total_size t in
  ∃ slot t', slot_at t index = Ret slot ∧
          place t k v = Ret t' ∧
          slot_at t' index =
            Ret (if index <? base_size t then place_base slot k v
                 else place_heap slot k v) ∧
          total_size t' = total_size t ∧
          num_entries t' = num_entries t.
Proof.
  intros Ht index.
  assert (index < total_size t) as Hi by (by apply N.mod_lt).
  destruct (slot_defined t index Hi) as [slot Hslot].
  exists slot. unfold place. rewrite slot_index_Ret by done. simpl. fold index.
  rewrite Hslot. simpl. unfold slot_at in *.
  destruct (N.ltb_spec index (base_size t)) as [Hlt|Hge].
  - eexists. split; [done|]. split; [done|].
    apply at_index_inv in Hslot.
    unfold total_size, base_size, heap_size. simpl. rewrite !length_insert.
    destruct (N.ltb_spec index (N.of_nat (length (base_array t)))); [|unfold base_size in *; lia].
    split; [|done]. unfold at_index.
    rewrite list_lookup_insert_eq; [done|]. by eapply lookup_lt_Some.
  - eexists. split; [done|]. split; [done|].
    apply at_index_inv in Hslot.
    unfold total_size, base_size, heap_size. simpl. rewrite !length_insert.
    destruct (N.ltb_spec index (N.of_nat (length (base_array t)))); [unfold base_size in *; lia|].
    split; [|done]. unfold at_index.
    rewrite list_lookup_insert_eq; [done|]. by eapply lookup_lt_Some.
Qed.


Lemma fill_keeps_heap (rest : list (K * V)) : ∀ t t',
  fill_table rest t = Ret t' → heap_array t' = heap_array t.
Proof.
  induction rest as [|[k v] rest IH]; intros t t'; simpl.
  - by intros [= <-].
  - intros (i & _ & Hrest)%bind_Ret. apply bind_Ret in Hrest as (slot & _ & Hrest).
    destruct slot; [discriminate|]. by apply IH in Hrest.
Qed.

Lemma fill_spec (size : N) (rest : list (K * V)) : ∀ t,
  base_size t = size → size ≠ 0 →
  let indices := base_indices size rest in
  let free := NoDup indices ∧ ∀ i, i ∈ indices → ¬ engaged t i in
  (¬ free → fill_table rest t = Thrown collision) ∧
  (free → ∃ t', fill_table rest t = Ret t' ∧ base_size t' = size ∧
      (∀ k v, (k, v) ∈ rest →
         base_array t' !! N.to_nat (std_hash k mod size) = Some (Some (mkNode k v None))) ∧
      (∀ i, i ∉ indices → base_array t' !! N.to_nat i = base_array t !! N.to_nat i)).
Proof.
  induction rest as [|[k v] rest IH]; intros t Hsize Hpos; simpl.
  - split.
    + intros Hfree. exfalso. apply Hfree. split; [constructor|].
      intros i Hi. by apply elem_of_nil in Hi.
    + intros _. exists t. split_and!; try done. intros k v Hin. by apply elem_of_nil in Hin.
  - rewrite Hsize, slot_index_Ret by done. simpl.
    set (index := std_hash k mod size).
    assert (index < size) as Hindex by (by apply N.mod_lt).
    destruct (at_index_Ret (base_array t) index) as (slot & -> & Hslot).
    { by rewrite <- Hsize in Hindex. }
    simpl. destruct slot as [n|].
    + split; [done|]. intros [_ Hfree]. exfalso.
      apply (Hfree index); [by left|]. by exists n.
    + set (t1 := mkTable _ _ _).
      assert (base_size t1 = size) as Hsize1.
      { unfold base_size, t1. simpl. rewrite length_insert. exact Hsize. }
      assert (base_array t1 !! N.to_nat index = Some (Some (mkNode k v None))) as Hput.
      { unfold t1. simpl. apply list_lookup_insert_eq. by eapply lookup_lt_Some. }
      assert (∀ j, j ≠ index →
                base_array t1 !! N.to_nat j = base_array t !! N.to_nat j) as Hother.
      { intros j Hj. unfold t1. simpl. apply list_lookup_insert_ne. lia. }
      assert (¬ engaged t index) as Hfree0.
      { intros (n0 & Hn0). congruence. }
      destruct (IH t1 Hsize1 Hpos) as [IHthrow IHret]. split.
      * intros Hnot. apply IHthrow. intros [Hnd Hfree]. apply Hnot. split.
        -- apply NoDup_cons. split; [|done]. intros Hin.
           apply (Hfree index Hin). by eexists.
        -- intros j [->|Hj]%elem_of_cons; [done|].
           intros (n0 & Hn0). apply (Hfree j Hj). exists n0.
           rewrite Hother; [done|]. intros ->. congruence.
      * intros [[Hnotin Hnd]%NoDup_cons Hfree].
        destruct IHret as (t' & Hfill & Hsize' & Hplaced & Hkept).
        { split; [done|]. intros j Hj (n0 & Hn0).
          apply (Hfree j); [by right|]. exists n0.
          rewrite <- Hother; [done|]. by intros ->. }
        exists t'. split_and!; try done.
        -- intros k' v' [[= -> ->]|Hin]%elem_of_cons.
           ++ fold index. by rewrite Hkept.
           ++ by apply Hplaced.
        -- intros j Hj. apply not_elem_of_cons in Hj as [Hj1 Hj2].
           rewrite Hkept by done. by apply Hother.
Qed.

Lemma from_nice_pairs_spec (size : N) (pairs : list (K * V)) :
  (∀ k, key_eq k k = true) →
  0 < size < size_max →
  let indices := base_indices size pairs in
  (from_nice_pairs size pairs = Thrown collision ↔ ¬ NoDup indices) ∧
  (NoDup indices →
     ∃ t, from_nice_pairs size pairs = Ret t ∧ heap_array t = [] ∧
          ∀ k v, (k, v) ∈ pairs → get t k = Ret (Some v)) ∧
  (∀ p s t, pairs = p ++ s → from_nice_pairs size p = Ret t → heap_array t = []).
Proof.
  intros Hrefl [Hpos Hmax] indices.
  assert (size ≠ 0) as Hsize by lia.
  assert (base_size (new_table (K:=K) (V:=V) size) = size) as Hnew.
  { unfold base_size, new_table. simpl. rewrite length_replicate. lia. }
  destruct (fill_spec size pairs (new_table size) Hnew Hsize) as [Hthrow Hret].
  assert (∀ i, ¬ engaged (new_table (K:=K) (V:=V) size) i) as Hfree.
  { intros i (n & Hn). unfold new_table in Hn. simpl in Hn.
    by apply lookup_replicate in Hn as [? _]. }
  assert (NoDup indices →
     ∃ t, from_nice_pairs size pairs = Ret t ∧ heap_array t = [] ∧
          ∀ k v, (k, v) ∈ pairs → get t k = Ret (Some v)) as Hgood.
  { intros Hnd. destruct Hret as (t & Hfill & Hsize' & Hplaced & _).
    { split; [done|]. intros i _. apply Hfree. }
    exists t. split; [done|].
    pose proof (fill_keeps_heap _ _ _ Hfill) as Hheap. simpl in Hheap.
    split; [done|]. intros k v Hin.
    assert (total_size t = size) as Htotal.
    { unfold total_size, heap_size. rewrite Hheap, Hsize'. simpl.
      rewrite N.add_0_r. by apply wrap_small. }
    unfold get. rewrite Htotal, slot_index_Ret by done. simpl.
    unfold slot_at. rewrite Hsize'.
    destruct (N.ltb_spec (std_hash k mod size) size) as [_|Hge].
    2:{ pose proof (N.mod_lt (std_hash k) size Hsize). lia. }
    unfold at_index. rewrite (Hplaced k v Hin). simpl. by rewrite Hrefl. }
  split_and!; [|done|].
  - split.
    + intros Hth Hnd. destruct (Hgood Hnd) as (t & Ht & _). congruence.
    + intros Hnd. apply Hthrow. by intros [? _].
  - intros p s t _ Hp. by rewrite (fill_keeps_heap _ _ _ Hp).
Qed.

End Facts.
End OptionalFacts.

(** ** Placing a pair in the optional-slot table *)

Module OptionalPlace.
Import Optional OptionalFacts.
Section Facts.
Context {K V : Type} `{Hashed K} `{Val V}.
Implicit Types (n : HashNode K V) (t : HashTable K V) (k : K) (v : V).
Implicit Types (slot : option (HashNode K V)).

(** *** Writing one slot *)

Lemma base_written t (i : N) slot (count : N) :
  i < base_size t →
  let t' := mkTable (<[N.to_nat i := slot]> (base_array t)) (heap_array t) count in
  slot_at t' i = Ret slot ∧
  (∀ j, j ≠ i → slot_at t' j = slot_at t j) ∧
  base_size t' = base_size t ∧ heap_size t' = heap_size t.
Proof.
  intros Hi t'. unfold slot_at, base_size, heap_size in *. simpl.
  rewrite length_insert. split_and!; try done.
  - destruct (N.ltb_spec i (N.of_nat (length (base_array t)))); [|lia].
    unfold at_index. rewrite list_lookup_insert_eq; [done|lia].
  - intros j Hj. destruct (j <? _); [|done].
    unfold at_index. rewrite list_lookup_insert_ne; [done|lia].
Qed.

Lemma heap_written t (i : N) slot (count : N) :
  base_size t ≤ i → i - base_size t < heap_size t →
  let t' := mkTable (base_array t)
              (<[N.to_nat (i - base_size t) := slot]> (heap_array t)) count in
  slot_at t' i = Ret slot ∧
  (∀ j, j ≠ i → slot_at t' j = slot_at t j) ∧
  base_size t' = base_size t ∧ heap_size t' = heap_size t.
Proof.
  intros Hi Hh t'. unfold slot_at, base_size, heap_size in *. simpl.
  rewrite length_insert. split_and!; try done.
  - destruct (N.ltb_spec i (N.of_nat (length (base_array t)))); [lia|].
    unfold at_index. rewrite list_lookup_insert_eq; [done|lia].
  - intros j Hj. destruct (N.ltb_spec j (N.of_nat (length (base_array t)))); [done|].
    unfold at_index. rewrite list_lookup_insert_ne; [done|lia].
Qed.

Lemma heap_index_in_range t (i : N) :
  i < total_size t → base_size t ≤ i → i - base_size t < heap_size t.
Proof.
  unfold total_size. pose proof (wrap_le (base_size t + heap_size t)). lia.
Qed.

Lemma total_size_eq t t' :
  base_size t' = base_size t → heap_size t' = heap_size t →
  total_size t' = total_size t.
Proof. unfold total_size. by intros -> ->. Qed.

Lemma placed_frame t t' k v :
  place t k v = Ret t' →
  total_size t ≠ 0 ∧
  ∃ slot, slot_at t (std_hash k mod total_size t) = Ret slot ∧
       slot_at t' (std_hash k mod total_size t)
         = Ret (placed t (std_hash k mod total_size t) slot k v) ∧
       (∀ j, j ≠ std_hash k mod total_size t → slot_at t' j = slot_at t j) ∧
       base_size t' = base_size t ∧ heap_size t' = heap_size t ∧
       num_entries t' = num_entries t.
Proof.
  unfold place, placed. intros (index & [Ht ->]%slot_index_inv & Hrest)%bind_Ret.
  split; [done|]. set (index := std_hash k mod total_size t) in *.
  assert (index < total_size t) as Hi by (by apply N.mod_lt).
  apply bind_Ret in Hrest as (slot & Hslot & Hrest). exists slot. split; [done|].
  destruct (N.ltb_spec index (base_size t)) as [Hlt|Hge]; injection Hrest as <-.
  - destruct (base_written t index (place_base slot k v) (num_entries t) Hlt)
      as (? & ? & ? & ?). done.
  - destruct (heap_written t index (place_heap slot k v) (num_entries t) Hge)
      as (? & ? & ? & ?); [by apply heap_index_in_range|]. done.
Qed.
End Facts.
End OptionalPlace.

(** ** Insert and growth of the optional-slot table *)

Module OptionalUpdate.
Import Optional OptionalFacts OptionalPlace.
Section Facts.
Context {K V : Type} `{Hashed K} `{Val V}.
Implicit Types (n : HashNode K V) (t : HashTable K V) (k : K) (v : V).
Implicit Types (slot : option (HashNode K V)).

(** *** Lookups after [place] *)

Lemma get_placed t t' k v k0 :
  place t k v = Ret t' →
  ∃ slot, slot_at t (std_hash k mod total_size t) = Ret slot ∧
    get t' k0 =
      if std_hash k0 mod total_size t =? std_hash k mod total_size t
      then Ret (slot_get (placed t (std_hash k mod total_size t) slot k v) k0)
      else get t k0.
Proof.
  intros (Ht & slot & Hslot & Hslot' & Hother & Hb & Hh & _)%placed_frame.
  exists slot. split; [done|].
  pose proof (total_size_eq _ _ Hb Hh) as Hs.
  unfold get. rewrite Hs, slot_index_Ret by done. simpl.
  destruct (N.eqb_spec (std_hash k0 mod total_size t)
                       (std_hash k mod total_size t)) as [->|Hne].
  - by rewrite Hslot'.
  - by rewrite (Hother _ Hne).
Qed.

Lemma slot_get_placed_other t index slot k v k' :
  key_eq k k' = false →
  slot_get (placed t index slot k v) k' = slot_get slot k'.
Proof.
  intros Hne. unfold placed, place_base, place_heap.
  destruct (index <? base_size t); simpl.
  - destruct slot as [[nk nv nx]|]; simpl; rewrite Hne; [|done].
    by destruct (key_eq nk k').
  - by rewrite Hne.
Qed.

Lemma slot_get_placed_new t index slot k v :
  key_eq k k = true → slot_get slot k = None →
  slot_get (placed t index slot k v) k = Some v.
Proof.
  intros Hrefl Habsent. unfold placed, place_base, place_heap.
  destruct (index <? base_size t); simpl.
  - destruct slot as [[nk nv nx]|]; simpl in *; rewrite Hrefl; [|done].
    by destruct (key_eq nk k).
  - by rewrite Hrefl.
Qed.

Lemma insert_places t k v :
  load_exceeded (num_entries (counted t)) (total_size t) = false →
  insert t k v = place (counted t) k v.
Proof. intros Hload. unfold insert. fold (counted t).
  change (total_size (counted t)) with (total_size t). by rewrite Hload. Qed.

Lemma place_defined t k v : total_size t ≠ 0 → ∃ t', place t k v = Ret t'.
Proof.
  intros Ht. destruct (place_front_spec t k v Ht) as (slot & t' & _ & Hp & _). eauto.
Qed.

(** *** grow *)

Lemma store_Ret {A : Type} (a : list A) (i : nat) (x : A) :
  (i < length a)%nat → store a i x = Ret (<[i := x]> a).
Proof. intros Hi. unfold store. by destruct (Nat.ltb_spec i (length a)); [|lia]. Qed.

Lemma store_Undef {A : Type} (a : list A) (i : nat) (x : A) :
  (length a ≤ i)%nat → store a i x = Undef.
Proof. intros Hi. unfold store. by destruct (Nat.ltb_spec i (length a)); [lia|]. Qed.

Lemma at_index_nat {A : Type} (a : list A) (i : nat) :
  (i < length a)%nat → ∃ x, at_index a (N.of_nat i) = Ret x ∧ a !! i = Some x.
Proof.
  intros Hi. destruct (at_index_Ret a (N.of_nat i)) as (x & Hx & Hl); [lia|].
  rewrite Nat2N.id in Hl. eauto.
Qed.

Lemma move_heap_defined (indices : list nat) (old : list (option (HashNode K V))) :
  ∀ new : list (option (HashNode K V)),
  Forall (λ i, i < length old ∧ i < length new)%nat indices →
  ∃ new', move_heap indices old new = Ret new' ∧ length new' = length new.
Proof.
  induction indices as [|i indices IH]; intros new Hin; simpl; [eauto|].
  apply Forall_cons in Hin as [[Hold Hnew] Hin].
  destruct (at_index_nat old i Hold) as (slot & -> & _). simpl.
  destruct slot as [n|]; [|by apply IH].
  rewrite store_Ret by done. simpl.
  destruct (IH (<[i := Some n]> new)) as (new' & -> & Hlen).
  { eapply Forall_impl; [exact Hin|]. intros j. rewrite length_insert. done. }
  exists new'. split; [done|]. by rewrite Hlen, length_insert.
Qed.

Lemma move_base_defined (indices : list nat) :
  ∀ b new : list (option (HashNode K V)),
  Forall (λ i, i < length b ∧ i < length new)%nat indices →
  ∃ b' new', move_base indices b new = Ret (b', new') ∧
             length b' = length b ∧ length new' = length new.
Proof.
  induction indices as [|i indices IH]; intros b new Hin; simpl; [eauto|].
  apply Forall_cons in Hin as [[Hb Hnew] Hin].
  destruct (at_index_nat b i Hb) as (slot & -> & _). simpl.
  destruct slot as [n|]; [|by apply IH].
  rewrite store_Ret by done. simpl.
  edestruct (IH (<[i := Some (mkNode (moved_key (key n)) (val_moved (value n)) None)]> b)
               (<[i := Some n]> new)) as (b' & new' & -> & Hlb & Hln).
  { eapply Forall_impl; [exact Hin|]. intros j. rewrite !length_insert. done. }
  exists b', new'. split; [done|]. by rewrite Hlb, Hln, !length_insert.
Qed.

Lemma move_base_out_of_bounds (indices : list nat) (i : nat) :
  ∀ (b new : list (option (HashNode K V))) n,
  Forall (λ j, j < length b)%nat indices →
  i ∈ indices → b !! i = Some (Some n) → (length new ≤ i)%nat →
  move_base indices b new = Undef.
Proof.
  induction indices as [|j indices IH]; intros b new n Hin Hi Hn Hlen; simpl.
  { by apply elem_of_nil in Hi. }
  apply Forall_cons in Hin as [Hj Hin].
  destruct (at_index_nat b j Hj) as (slot & -> & Hslot). simpl.
  destruct (decide (i = j)) as [->|Hne].
  - rewrite Hn in Hslot. injection Hslot as <-. by rewrite store_Undef.
  - apply elem_of_cons in Hi as [?|Hi]; [done|].
    destruct slot as [m|]; [|by eapply IH].
    destruct (Nat.ltb_spec j (length new)) as [Hlt|Hge];
      [|by rewrite store_Undef].
    rewrite store_Ret by done. simpl. eapply IH; [| done | |].
    + eapply Forall_impl; [exact Hin|]. intros ?. by rewrite length_insert.
    + rewrite list_lookup_insert_ne by done. exact Hn.
    + by rewrite length_insert.
Qed.

Lemma seq_below (len : nat) : Forall (λ i, i < len)%nat (seq 0 len).
Proof. apply Forall_forall. intros i Hi%elem_of_seq. lia. Qed.

Lemma length_new_heap t :
  heap_size t * 2 + 10 < size_max →
  length (replicate (N.to_nat (wrap (heap_size t * 2 + 10))) (@None (HashNode K V)))
  = (length (heap_array t) * 2 + 10)%nat.
Proof.
  intros Hsmall. rewrite length_replicate, wrap_small by done.
  unfold heap_size. lia.
Qed.

Lemma grow_defined t :
  heap_size t * 2 + 10 < size_max →
  base_size t ≤ heap_size t * 2 + 10 →
  ∃ t', grow t = Ret t' ∧
        base_size t' = base_size t ∧
        heap_size t' = heap_size t * 2 + 10 ∧
        num_entries t' = num_entries t.
Proof.
  intros Hsmall Hbase. unfold grow.
  pose proof (length_new_heap t Hsmall) as Hlen.
  destruct (move_heap_defined (seq 0 (length (heap_array t))) (heap_array t)
              (replicate (N.to_nat (wrap (heap_size t * 2 + 10))) None))
    as (new & -> & Hnew).
  { eapply Forall_impl; [apply seq_below|]. intros i Hi. simpl in *. lia. }
  simpl.
  destruct (move_base_defined (seq 0 (length (base_array t))) (base_array t) new)
    as (b' & new' & -> & Hlb & Hln).
  { eapply Forall_impl; [apply seq_below|]. intros i Hi. simpl in *.
    unfold base_size, heap_size in Hbase. lia. }
  simpl. eexists. split; [done|]. unfold base_size, heap_size. simpl.
  split_and!; [by rewrite Hlb| |done]. rewrite Hln, Hnew, Hlen. lia.
Qed.

Lemma grow_out_of_bounds t (i : N) n :
  heap_size t * 2 + 10 < size_max →
  base_array t !! N.to_nat i = Some (Some n) →
  heap_size t * 2 + 10 ≤ i →
  grow t = Undef.
Proof.
  intros Hsmall Hn Hi. unfold grow.
  pose proof (length_new_heap t Hsmall) as Hlen.
  destruct (move_heap_defined (seq 0 (length (heap_array t))) (heap_array t)
              (replicate (N.to_nat (wrap (heap_size t * 2 + 10))) None))
    as (new & -> & Hnew).
  { eapply Forall_impl; [apply seq_below|]. intros j Hj. simpl in *. lia. }
  simpl.
  rewrite (move_base_out_of_bounds _ (N.to_nat i) (base_array t) new n); [done| | |done|].
  - apply seq_below.
  - apply elem_of_seq. apply lookup_lt_Some in Hn. lia.
  - rewrite Hnew, Hlen. unfold heap_size in Hi. lia.
Qed.

(** *** get_constexpr *)

Lemma get_constexpr_get t k :
  heap_array t = [] → base_size t < size_max →
  get_constexpr t k = get t k.
Proof.
  intros Hheap Hsmall. unfold get_constexpr, get.
  assert (total_size t = base_size t) as ->.
  { unfold total_size, heap_size. rewrite Hheap. simpl.
    rewrite N.add_0_r. by apply wrap_small. }
  unfold slot_index. destruct (N.eqb_spec (base_size t) 0) as [|Hne]; [done|].
  simpl. unfold slot_at.
  destruct (N.ltb_spec (std_hash k mod base_size t) (base_size t)) as [_|Hge]; [done|].
  pose proof (N.mod_lt (std_hash k) (base_size t) Hne). lia.
Qed.

(** *** from_nice_pairs *)

Lemma wrap_add_l (a b : N) : wrap (wrap a + b) = wrap (a + b).
Proof. unfold wrap. apply N.Div0.add_mod_idemp_l. Qed.

Lemma wrap_lt (a : N) : wrap a < size_max.
Proof. unfold wrap. by apply N.mod_lt. Qed.

Lemma fill_counts (rest : list (K * V)) : ∀ t t',
  num_entries t < size_max →
  fill_table rest t = Ret t' →
  num_entries t' = wrap (num_entries t + N.of_nat (length rest)) ∧
  base_size t' = base_size t.
Proof.
  induction rest as [|[k v] rest IH]; intros t t' Hsmall; simpl.
  - intros [= <-]. split; [|done]. rewrite N.add_0_r. by rewrite wrap_small.
  - intros (i & _ & Hrest)%bind_Ret. apply bind_Ret in Hrest as (slot & _ & Hrest).
    destruct slot; [discriminate|]. apply IH in Hrest as [-> ->]; [|apply wrap_lt].
    simpl. split.
    + rewrite wrap_add_l. f_equal. lia.
    + unfold base_size. simpl. by rewrite length_insert.
Qed.

End Facts.
End OptionalUpdate.

(** ** The claims *)

Import (hints) Optional.
Import (coercions) Sentinel.

(** Closed goals about concrete tables are settled by running the model. *)
Local Ltac evaluate := vm_compute; reflexivity.

(** A conjunction of such goals, left to right, so that a table found by one
    conjunct is known to the next. *)
Local Ltac evaluate_each :=
  repeat match goal with |- _ ∧ _ => split; [evaluate|] end; evaluate.

(** The laws of [IntKey] and [int] keys that the general statements ask for. *)
Lemma IntKey_eqb_refl (k : IntKey) : key_eqb k k = true.
Proof. apply Z.eqb_refl. Qed.


Lemma int_eq_refl (k : Z) : Optional.key_eq k k = true.
Proof. apply Z.eqb_refl. Qed.

(** C1 (round trip).  The code breaks the claim.  [grow] assigns a temporary
    [HeapArray] to [heap]: the array is deleted together with the temporary,
    and from the first growth on [heap.data] dangles.  Base size 2 holding
    key 1: the insert of key 2 grows the table and then selects heap slot 0,
    a slot of the deleted array.  After the inserts of keys 1 and 7, which
    both end in the base array, the insert of key 3 does the same.  So the
    run that inserts the keys 1 to 7 is undefined from its second insert on,
    and with it every [get] that follows. *)
Theorem C1_insert_after_growth_is_undefined :
  (∃ t,
     table_after 2 [1]%Z = Ret (t, []) ∧
     Sentinel.get t (ik 1) = Ret (Some 100%Z) ∧
     Sentinel.load_exceeded (Sentinel.counted t) = true ∧
     ∀ fuel : nat, Sentinel.insert (S (S fuel)) t (ik 2) 200%Z = Undef) ∧
  (∃ t,
     table_after 2 [1; 7]%Z = Ret (t, ["growing"]%string) ∧
     Sentinel.heap t = Sentinel.dangling 4 ∧
     Sentinel.load_exceeded (Sentinel.counted t) = false ∧
     ∀ fuel : nat, Sentinel.insert (S fuel) t (ik 3) 300%Z = Undef) ∧
  table_after 2 [1; 2]%Z = Undef ∧
  ∀ z : Z, get_after 2 [1; 2; 3; 4; 5; 6; 7]%Z z = Undef.
Proof.
  split_and!.
  - eexists. split; [evaluate|]. split; [evaluate|]. split; [evaluate|].
    intros fuel. replace (S (S fuel)) with (fuel + 2)%nat by lia.
    rewrite SentinelFacts.insert_more_fuel; [evaluate|].
    intros Hout. vm_compute in Hout. discriminate.
  - eexists. split; [evaluate|]. split; [evaluate|]. split; [evaluate|].
    intros fuel. replace (S fuel) with (fuel + 1)%nat by lia.
    rewrite SentinelFacts.insert_more_fuel; [evaluate|].
    intros Hout. vm_compute in Hout. discriminate.
  - evaluate.
  - intros z. unfold get_after.
    replace (table_after 2 [1; 2; 3; 4; 5; 6; 7]%Z) with
      (Undef : run (Sentinel.State IntKey Z * list string)); [done|].
    symmetry. evaluate.
Qed.

(** C2 (growth keeps the multiset of entries).  The code breaks the claim in
    both tables.  Sentinel-key table, base size 2 holding key 1: [grow] moves
    key and value out of the base node, which leaves an [IntKey] and an [int]
    as they were, and reinserts the entry into the same slot; the base array
    then holds (1,100) twice, the heap array it allocated is already deleted,
    and the count has gone from 2 to 1.  Optional-slot table, base size 2:
    [grow] copies the base entry into the heap array and leaves it in the
    base array as well. *)
Theorem C2_growth_changes_the_entries :
  (∃ t t',
     table_after 2 [1]%Z = Ret (t, []) ∧
     Sentinel.load_exceeded (Sentinel.counted t) = true ∧
     Sentinel.grow 1 (Sentinel.counted t) = Ret (t', ["growing"]%string) ∧
     Sentinel.heap (Sentinel.counted t) = [] ∧
     Sentinel.entries (Sentinel.counted t) = [entry 1] ∧
     Sentinel.entryCount (Sentinel.counted t) = 2 ∧
     Sentinel.base_entries t' = [entry 1; entry 1] ∧
     Sentinel.heap t' = Sentinel.dangling 4 ∧
     Sentinel.entryCount t' = 1) ∧
  (∃ t t',
     Optional.from_pairs 2 [(1, 100)]%Z = Ret t ∧
     Optional.load_exceeded (Optional.num_entries (Optional.counted t))
                            (Optional.total_size (Optional.counted t)) = true ∧
     Optional.grow (Optional.counted t) = Ret t' ∧
     Optional.entries (Optional.counted t) = [(1, 100)]%Z ∧
     Optional.entries t' = [(1, 100); (1, 100)]%Z).
Proof.
  split_and!; eexists _, _; evaluate_each.
Qed.

(** C3 (remove takes out exactly one entry).  The code breaks the claim.
    Base size 10, keys 1, 11, 21 share slot 1 as a chain of three.  Removing
    key 1, the head, promotes key 11 and then resets the link to key 21: key
    21 is no longer found. *)
Theorem C3_remove_of_head_drops_the_chain :
  ∃ t t',
    table_after 10 [1; 11; 21]%Z = Ret (t, []) ∧
    Sentinel.get t (ik 21) = Ret (Some 2100%Z) ∧
    Sentinel.remove t (ik 1) = Ret t' ∧
    Sentinel.get t' (ik 1) = Ret None ∧
    Sentinel.get t' (ik 11) = Ret (Some 1100%Z) ∧
    Sentinel.get t' (ik 21) = Ret None.
Proof. eexists _, _; evaluate_each. Qed.

(** C4 (remove of an absent key).  The code of the sentinel-key table breaks
    the claim: [remove] decrements [entryCount] before it searches.  Base
    size 10 holding key 1 only: key 2 is absent, and removing it takes the
    count from 1 to 0 while the stored entries stay. *)
Theorem C4_remove_of_absent_key_decrements :
  ∃ t t',
    table_after 10 [1]%Z = Ret (t, []) ∧
    Sentinel.get t (ik 2) = Ret None ∧
    Sentinel.entryCount t = 1 ∧
    Sentinel.remove t (ik 2) = Ret t' ∧
    Sentinel.entries t' = Sentinel.entries t ∧
    Sentinel.entryCount t' = 0.
Proof. eexists _, _; evaluate_each. Qed.

(** C5, as stated, fails on the sentinel-key table: the null key 0 and key 10
    both have base index 0 at base size 10, yet [make_table] returns a table,
    and that table does not hold key 0. *)
Lemma C5_null_key_collision_goes_unnoticed :
  Sentinel.base_indices 10 [(ik 0, 1%Z); (ik 10, 2%Z)] = [0; 0] ∧
  ∃ t, Sentinel.make_table 10 [(ik 0, 1%Z); (ik 10, 2%Z)] = Ret t ∧
       Sentinel.get t (ik 0) = Ret None ∧
       Sentinel.get t (ik 10) = Ret (Some 2%Z).
Proof. split; [reflexivity|]. eexists; evaluate_each. Qed.

(** C5, amended.  In the sentinel-key table, for a list without null keys,
    [make_table] throws exactly when two entries have the same base index;
    otherwise it returns a table in which every entry of the list is found
    with its value.  In the optional-slot table the same holds of
    [from_nice_pairs] for every list.  Neither ever allocates a heap array:
    the table built from any prefix of the list has none.  (Base sizes are
    positive [size_t] values; keys are equal to themselves, and [K{}] is the
    null key.) *)
Theorem C5_frozen_construction :
  (∀ (K V : Type) (HK : Key K) (HV : Val V) (size : N) (entries : list (K * V)),
     (∀ k : K, key_eqb k k = true) →
     isNull (key_init (K := K)) = true →
     0 < size < size_max →
     Forall (λ e, isNull e.1 = false) entries →
     (Sentinel.make_table size entries = Thrown Sentinel.collision
        ↔ ¬ NoDup (Sentinel.base_indices size entries)) ∧
     (NoDup (Sentinel.base_indices size entries) →
        ∃ t, Sentinel.make_table size entries = Ret t ∧ Sentinel.heap t = [] ∧
             ∀ k v, (k, v) ∈ entries → Sentinel.get t k = Ret (Some v)) ∧
     (∀ p s t, entries = p ++ s → Sentinel.make_table size p = Ret t →
               Sentinel.heap t = [])) ∧
  (∀ (K V : Type) (HK : Optional.Hashed K) (HV : Val V) (size : N)
     (pairs : list (K * V)),
     (∀ k : K, Optional.key_eq k k = true) →
     0 < size < size_max →
     (Optional.from_nice_pairs size pairs = Thrown Optional.collision
        ↔ ¬ NoDup (Optional.base_indices size pairs)) ∧
     (NoDup (Optional.base_indices size pairs) →
        ∃ t, Optional.from_nice_pairs size pairs = Ret t ∧
             Optional.heap_array t = [] ∧
             ∀ k v, (k, v) ∈ pairs → Optional.get t k = Ret (Some v)) ∧
     (∀ p s t, pairs = p ++ s → Optional.from_nice_pairs size p = Ret t →
               Optional.heap_array t = [])).
Proof.
  split.
  - intros K V HK HV size entries Hrefl Hnull Hsize Hnn.
    by apply SentinelFacts.make_table_without_null_keys.
  - intros K V HK HV size pairs Hrefl Hsize.
    by apply OptionalFacts.from_nice_pairs_spec.
Qed.

(** The amended C5 at the tables of the test drivers: base size 10 with the
    entries of keys 1 to 4 (sentinel-key table), base size 5 with the keys 1,
    2, 3 (optional-slot table). *)
Lemma C5_frozen_construction_witness :
  ((∀ k : Z, Optional.key_eq k k = true) ∧
   0 < 5 < size_max ∧
   ∃ t, Optional.from_nice_pairs 5 [(1, 100); (2, 200); (3, 300)]%Z = Ret t ∧
        Optional.heap_array t = [] ∧
        ∀ k v, (k, v) ∈ [(1, 100); (2, 200); (3, 300)]%Z →
               Optional.get t k = Ret (Some v)) ∧
  (∀ k : IntKey, key_eqb k k = true) ∧
  isNull (key_init (K := IntKey)) = true ∧
  0 < 10 < size_max ∧
  Forall (λ e : IntKey * Z, isNull e.1 = false) (entry <$> [1; 2; 3; 4]%Z) ∧
  ∃ t, Sentinel.make_table 10 (entry <$> [1; 2; 3; 4]%Z) = Ret t ∧
       Sentinel.heap t = [] ∧
       ∀ k v, (k, v) ∈ entry <$> [1; 2; 3; 4]%Z → Sentinel.get t k = Ret (Some v).
Proof.
  assert (0 < 10 < size_max) as Hsize by (split; reflexivity).
  assert (Forall (λ e : IntKey * Z, isNull e.1 = false) (entry <$> [1; 2; 3; 4]%Z))
    as Hnn by (repeat constructor).
  assert (0 < 5 < size_max) as Hsize5 by (split; reflexivity).
  split.
  { refine (conj int_eq_refl (conj Hsize5 _)).
    destruct (proj2 C5_frozen_construction Z Z _ _ 5
                [(1, 100); (2, 200); (3, 300)]%Z int_eq_refl Hsize5)
      as (_ & Hgood & _).
    apply Hgood. refine (bool_decide_unpack _ _). vm_compute. exact I. }
  refine (conj IntKey_eqb_refl (conj eq_refl (conj Hsize (conj Hnn _)))).
  destruct (proj1 C5_frozen_construction IntKey Z _ _ 10 (entry <$> [1; 2; 3; 4]%Z)
              IntKey_eqb_refl eq_refl Hsize Hnn) as (_ & Hgood & _).
  apply Hgood. refine (bool_decide_unpack _ _). vm_compute. exact I.
Defined.

(** C6 (copying is a deep copy of everything).  The code breaks the claim.
    Base size 3 after the inserts of keys 1, 2 and 7: the third insert grew
    the table, so its heap array has length 4 and key 7, with index 7 mod 7,
    is in base slot 0.  The copy constructor tests the heap length of the
    table under construction, which is zero: the copy has no heap array,
    looks for key 7 at index 7 mod 3 and does not find it. *)
Theorem C6_copy_leaves_out_the_heap :
  ∃ t t',
    table_after 3 [1; 2; 7]%Z = Ret (t, ["growing"]%string) ∧
    Sentinel.heap_length t = 4 ∧
    Sentinel.get t (ik 7) = Ret (Some 700%Z) ∧
    Sentinel.copy_table t = Ret t' ∧
    Sentinel.base t' = Sentinel.base t ∧
    Sentinel.heap t' = [] ∧
    Sentinel.heap_length t' = 0 ∧
    Sentinel.get t' (ik 7) = Ret None.
Proof. eexists _, _; evaluate_each. Qed.

(** C7 (no growth inside a growth).  The code breaks the claim: [grow]
    reinserts through [insert], load check included.  Base size 2; each of the
    keys 1, 7, 13, 19 is inserted and followed by a [remove] of the absent
    key 99, which takes the count back to 0; then key 25 is inserted.  The
    five entries are chained in base slot 1 and counted as 1.  The insert of
    key 31 calls [grow], which collects the five entries.  After four of them
    are reinserted the count is 4 of 6 slots, so the reinsertion of the fifth
    exceeds the load limit and calls [grow] again; that second [grow] reads
    the heap array which the first one left deleted, so the reinsertion and
    with it the insert of key 31 are undefined. *)
Theorem C7_growth_inside_growth :
  ∃ t t4,
    Sentinel.calls 1 (uncounted [1; 7; 13; 19]%Z ++ [Sentinel.call_insert (ik 25) 2500%Z])
                   (Sentinel.new_table 2) = Ret (t, []) ∧
    Sentinel.entryCount t = 1 ∧
    Sentinel.load_exceeded (Sentinel.counted t) = true ∧
    Sentinel.collect (Sentinel.counted t) = Ret (entry <$> [1; 7; 13; 19; 25]%Z) ∧
    Sentinel.reinsert (Sentinel.insert 1) (entry <$> [1; 7; 13; 19]%Z)
                      (Sentinel.drained (Sentinel.counted t)) = Ret (t4, []) ∧
    Sentinel.entryCount t4 = 4 ∧
    Sentinel.heap t4 = Sentinel.dangling 4 ∧
    Sentinel.load_exceeded (Sentinel.counted t4) = true ∧
    (∀ fuel : nat, Sentinel.grow fuel (Sentinel.counted t4) = Undef) ∧
    (∀ fuel : nat, Sentinel.insert (S fuel) t4 (ik 25) 2500%Z = Undef) ∧
    ∀ fuel : nat, Sentinel.insert (S (S fuel)) t (ik 31) 3100%Z = Undef.
Proof.
  eexists _, _.
  repeat match goal with |- (_ = _) ∧ _ => split; [evaluate|] end.
  split_and!.
  - intros fuel. reflexivity.
  - intros fuel. reflexivity.
  - intros fuel. replace (S (S fuel)) with (fuel + 2)%nat by lia.
    rewrite SentinelFacts.insert_more_fuel; [evaluate|].
    intros Hout. vm_compute in Hout. discriminate.
Qed.

(** C8 (growth empties the base slots).  The code breaks the second half of
    the claim in both tables; the base size is indeed unchanged.
    Sentinel-key table, base size 2 holding key 1: when the reinsertion loop
    of [grow] starts, the base array is what it was, key 1 still in slot 1.
    Optional-slot table: after [grow] base slot 1 is still engaged. *)
Theorem C8_base_slots_are_not_reset :
  (∃ t,
     table_after 2 [1]%Z = Ret (t, []) ∧
     Sentinel.load_exceeded (Sentinel.counted t) = true ∧
     Sentinel.base (Sentinel.drained (Sentinel.counted t)) = Sentinel.base t ∧
     Sentinel.base t !! 1%nat = Some (Sentinel.mkNode (ik 1) 100%Z None) ∧
     Sentinel.isOccupied (Sentinel.mkNode (ik 1) 100%Z None) = true) ∧
  (∃ t t',
     Optional.from_pairs 2 [(1, 100)]%Z = Ret t ∧
     Optional.grow (Optional.counted t) = Ret t' ∧
     Optional.base_size t' = Optional.base_size t ∧
     Optional.base_array t' !! 1%nat = Some (Some (Optional.mkNode 1%Z 100%Z None))).
Proof.
  split; [eexists|eexists _, _]; evaluate_each.
Qed.







(** * Further properties *)

(** ** Properties of the sentinel-key table *)

(** Tables whose heap array is allocated. *)
Section AllocatedTables.
Import Sentinel SentinelFacts.
Context {K V : Type} `{Key K} `{Val V}.
Implicit Types (n : HashNode K V) (t : HashTable K V) (k : K) (v : V).
Local Arguments pair {A B} & a b.



End AllocatedTables.

(** Tables in any state. *)
Section SentinelProperties.
Import Sentinel SentinelFacts.
Context {K V : Type} `{Key K} `{Val V}.
Implicit Types (n : HashNode K V) (t : State K V) (k : K) (v : V).

(** X2.  A freshly constructed table holds no key, and [remove] on it changes
    nothing (its count is zero, so it returns before it computes an index). *)
Theorem fresh_table_is_empty (size : N) k :
  isNull (key_init (K := K)) = true →
  0 < size < size_max →
  get (new_table (V := V) size) k = Ret None ∧
  remove (new_table (V := V) size) k = Ret (new_table size).
Proof.
  intros Hnull [Hpos Hmax]. split; [|done].
  assert (totalSize (new_table (K := K) (V := V) size) = size) as Hs.
  { unfold totalSize, heap_length. rewrite BaseSize_new_table. simpl.
    rewrite N.add_0_r. by apply wrap_small. }
  destruct (get_defined (new_table (V := V) size) [] k) as (n & Hn & ->); [done|lia|].
  rewrite Hs in Hn. unfold slot_at in Hn. rewrite BaseSize_new_table in Hn.
  destruct (N.ltb_spec (hash k mod size) size) as [_|Hge].
  2:{ pose proof (N.mod_lt (hash k) size). lia. }
  apply at_index_inv in Hn. simpl in Hn. apply lookup_replicate in Hn as [-> _].
  simpl. by rewrite Hnull.
Qed.

(** X3.  Insert, then get: when the insert does not make the table grow, a
    non-null key that was absent is found afterwards with the inserted value,
    and the count has gone up by one. *)
Theorem insert_then_get (fuel : nat) t k v :
  key_eqb k k = true →
  isNull k = false →
  load_exceeded (counted t) = false →
  get t k = Ret None →
  ∃ t', insert (S fuel) t k v = Ret (t', []) ∧
        get t' k = Ret (Some v) ∧
        entryCount t' = wrap (entryCount t + 1).
Proof.
  intros Hrefl Hk Hload (Ht & n & Hn & Habsent)%get_found_inv.
  destruct (place_returns (counted t) k v n Ht Hn) as [t' Hplace].
  exists t'. rewrite insert_without_growth, Hplace by done. split; [done|].
  split; [|by apply place_frame in Hplace as (_ & ? & _ & _ & _ & _ & _ & ->)].
  destruct (get_place (counted t) t' k v k Hplace) as (n1 & Hn1 & ->).
  rewrite N.eqb_refl. change (slot_at (counted t)) with (slot_at t) in Hn1.
  change (totalSize (counted t)) with (totalSize t) in Hn1.
  rewrite Hn in Hn1. injection Hn1 as <-.
  by rewrite chain_get_place_new.
Qed.

(** X5.  The base array keeps its size: whatever an [insert] does, growth of
    any depth included, and whatever a [remove] does, the base size of the
    result is the base size at the start; [remove] also keeps the heap
    length. *)
Theorem base_size_is_fixed :
  (∀ (fuel : nat) t k v t' out,
     insert fuel t k v = Ret (t', out) → BaseSize t' = BaseSize t) ∧
  (∀ t k t',
     remove t k = Ret t' →
     BaseSize t' = BaseSize t ∧ heap_length t' = heap_length t).
Proof.
  split; [apply BaseSize_insert|].
  intros t k t' Hrem. destruct (N.eq_dec (entryCount t) 0) as [Hz|Hnz].
  - unfold remove in Hrem. rewrite Hz in Hrem. by injection Hrem as <-.
  - by apply remove_frame in Hrem as (_ & n & _ & _ & _ & ? & ? & _).
Qed.

(** X6.  The table keeps its slots well formed: a slot that can be read and
    whose head is unoccupied never has a chain behind it.  This holds of a
    fresh table and is preserved by every [insert] (growth included, which
    leaves no heap slot to read) and every [remove], for key types whose null
    status survives a move. *)
Theorem slots_stay_well_formed :
  (∀ k : K, isNull (key_moved k) = isNull k) →
  (∀ size : N, wf_table (new_table (K := K) (V := V) size)) ∧
  (∀ (fuel : nat) t k v t' out,
     wf_table t → insert fuel t k v = Ret (t', out) → wf_table t') ∧
  (∀ t k t', wf_table t → remove t k = Ret t' → wf_table t').
Proof.
  intros Hmoved. split_and!.
  - apply wf_new_table.
  - intros fuel. by apply wf_insert.
  - intros t k t'. apply wf_remove.
Qed.


(** X8.  Remove, then get: when the chain of the slot holds the key at most
    once, [remove] returns, the key is absent afterwards and the count has
    gone down by one.  (The table has entries counted, and [K{}] is the null
    key.) *)
Theorem remove_then_get t k n :
  isNull (key_init (K := K)) = true →
  entryCount t ≠ 0 →
  totalSize t ≠ 0 →
  slot_at t (hash k mod totalSize t) = Ret n →
  (chain_count n k ≤ 1)%nat →
  ∃ t', remove t k = Ret t' ∧
        get t' k = Ret None ∧
        entryCount t' = entryCount t - 1.
Proof.
  intros Hnull Hcount Ht Hn Honce.
  destruct (remove_returns t k n Ht Hn) as [t' Hrem]. exists t'. split; [done|].
  destruct (get_remove t t' k k Hcount Hrem) as (n0 & Hn0 & ->).
  rewrite Hn in Hn0. injection Hn0 as <-. rewrite N.eqb_refl.
  rewrite (remove_node_gone Hnull) by done. split; [done|].
  by apply remove_frame in Hrem as (_ & ? & _ & _ & _ & _ & _ & ?).
Qed.

(** X9.  [remove] leaves the other keys alone, except behind a removed head:
    if the key to remove is not in the head of its slot, or the chain of the
    slot has at most two nodes, then [get] returns the same as before for
    every key that no stored key confuses with the removed one. *)
Theorem remove_keeps_other_lookups t k k' n :
  isNull (key_init (K := K)) = true →
  (∀ a : K, key_eqb a k = true → key_eqb a k' = false) →
  entryCount t ≠ 0 →
  totalSize t ≠ 0 →
  slot_at t (hash k mod totalSize t) = Ret n →
  (key_eqb (key n) k = true → (chain_length n ≤ 2)%nat) →
  ∃ t', remove t k = Ret t' ∧ get t' k' = get t k'.
Proof.
  intros Hnull Hdist Hcount Ht Hn Hhead.
  destruct (remove_returns t k n Ht Hn) as [t' Hrem]. exists t'. split; [done|].
  destruct (get_remove t t' k k' Hcount Hrem) as (n0 & Hn0 & ->).
  rewrite Hn in Hn0. injection Hn0 as <-.
  destruct (N.eqb_spec (hash k' mod totalSize t) (hash k mod totalSize t))
    as [Heq|_]; [|done].
  rewrite (remove_node_other Hnull) by done.
  unfold get. rewrite slot_index_Ret by done. simpl. by rewrite Heq, Hn.
Qed.

(** X10.  The copy constructor copies the base array node by node and the
    count, and gives the copy no heap array: a table without heap array is
    copied exactly. *)
Theorem copy_keeps_base_and_count t :
  copy_table t = Ret (mkTable (base t) [] (entryCount t)) ∧
  (heap t = [] → copy_table t = Ret t).
Proof.
  split; [apply copy_table_eq|]. intros Hheap. rewrite copy_table_eq.
  destruct t as [b h c]. simpl in *. by subst h.
Qed.

(** X11.  [make_table] places entries without counting them: the table it
    returns has the requested base size, no heap array, and [entryCount]
    zero, whatever the number of entries. *)
Theorem make_table_counts_nothing (size : N) (entries : list (K * V)) t :
  make_table size entries = Ret t →
  BaseSize t = size ∧ heap t = [] ∧ entryCount t = 0.
Proof.
  unfold make_table. intros Hfill.
  destruct (fill_table_heap _ _ _ Hfill) as [Hheap Hcount].
  rewrite (fill_table_BaseSize _ _ _ Hfill), BaseSize_new_table. done.
Qed.

(** X22.  Growth costs the table its heap array.  After an [insert] that
    printed the line of [grow], [heap.data] points to a deleted array: [get]
    and [remove] of a key whose index falls behind the base array are
    undefined, so is an [insert] of such a key, and so is every [insert] that
    calls [grow] again. *)
Theorem grown_table_has_no_heap (fuel : nat) t k v t' out :
  insert fuel t k v = Ret (t', out) →
  out ≠ [] →
  (∃ len : N, heap t' = dangling len) ∧
  (∀ k', BaseSize t' ≤ hash k' mod totalSize t' →
     get t' k' = Undef ∧
     (entryCount t' ≠ 0 → remove t' k' = Undef) ∧
     (∀ (fuel' : nat) v',
        load_exceeded (counted t') = false → insert (S fuel') t' k' v' = Undef)) ∧
  (∀ (fuel' : nat) k' v',
     load_exceeded (counted t') = true → heap_length t' ≠ 0 →
     insert (S fuel') t' k' v' = Undef).
Proof.
  intros Hins Hout. destruct (insert_grown _ _ _ _ _ _ Hins Hout) as [len Hheap].
  split; [eauto|]. split.
  - intros k' Hindex.
    assert (∀ s, heap s = heap t' → BaseSize s = BaseSize t' →
                 totalSize s = totalSize t' →
                 slot_index (hash k') (totalSize s) ≫= slot_at s = Undef) as Hslot.
    { intros s Hh Hb Hs. rewrite Hs. unfold slot_index.
      destruct (totalSize t' =? 0); [done|]. simpl.
      apply (slot_at_dangling s len); [by rewrite Hh|by rewrite Hb]. }
    split_and!.
    + unfold get. pose proof (Hslot t' eq_refl eq_refl eq_refl) as Hu.
      destruct (slot_index (hash k') (totalSize t')); simpl in *; try done.
      by rewrite Hu.
    + intros Hcount. unfold remove.
      destruct (N.eqb_spec (entryCount t') 0) as [|_]; [done|].
      pose proof (Hslot t' eq_refl eq_refl eq_refl) as Hu.
      destruct (slot_index (hash k') (totalSize t')); simpl in *; try done.
      by rewrite Hu.
    + intros fuel' v' Hload. rewrite insert_without_growth by done.
      unfold place. change (totalSize (counted t')) with (totalSize t').
      change (BaseSize (counted t')) with (BaseSize t').
      change (heap (counted t')) with (heap t').
      unfold slot_index in *. destruct (totalSize t' =? 0); [done|]. simpl.
      destruct (N.ltb_spec (hash k' mod totalSize t') (BaseSize t')); [lia|].
      by rewrite Hheap.
  - intros fuel' k' v' Hload Hlen. simpl. fold (counted t'). rewrite Hload.
    unfold grow_with, collect, drain_heap.
    change (heap_length (counted t')) with (heap_length t').
    change (heap (counted t')) with (heap t').
    destruct (N.eqb_spec (heap_length t') 0) as [|_]; [done|].
    by rewrite Hheap.
Qed.

End SentinelProperties.

(** ** Properties of the optional-slot table *)

Section OptionalProperties.
Import Optional OptionalFacts OptionalPlace OptionalUpdate.
Context {K V : Type} `{Hashed K} `{Val V}.
Implicit Types (n : HashNode K V) (t : HashTable K V) (k : K) (v : V).
Implicit Types (slot : option (HashNode K V)).

(** X12.  [get] of the optional-slot table is undefined exactly on a table
    without any slot (base size 0 before the first growth), and returns on
    every other table. *)
Theorem optional_get_needs_a_slot t k :
  (get t k = Undef ↔ total_size t = 0) ∧
  ((∃ r, get t k = Ret r) ↔ total_size t ≠ 0).
Proof.
  assert (total_size t = 0 → get t k = Undef) as Hzero.
  { intros Ht. unfold get, slot_index. by rewrite Ht. }
  assert (total_size t ≠ 0 → ∃ r, get t k = Ret r) as Hpos.
  { intros Ht. destruct (slot_defined t (std_hash k mod total_size t)) as [slot Hs].
    { by apply N.mod_lt. }
    exists (slot_get slot k). unfold get. rewrite slot_index_Ret by done.
    simpl. by rewrite Hs. }
  split; split.
  - intros Hu. destruct (N.eq_dec (total_size t) 0) as [|Hne]; [done|].
    destruct (Hpos Hne) as [r Hr]. congruence.
  - exact Hzero.
  - intros [r Hr] Ht. rewrite (Hzero Ht) in Hr. discriminate.
  - exact Hpos.
Qed.

(** X13.  Insert, then get, in the optional-slot table: when the insert does
    not make the table grow, a key that was absent is found afterwards with
    the inserted value, and the count has gone up by one. *)
Theorem optional_insert_then_get t k v :
  key_eq k k = true →
  load_exceeded (num_entries (counted t)) (total_size t) = false →
  get t k = Ret None →
  ∃ t', insert t k v = Ret t' ∧
        get t' k = Ret (Some v) ∧
        num_entries t' = wrap (num_entries t + 1).
Proof.
  intros Hrefl Hload (Ht & slot & Hslot & Habsent)%get_inv.
  destruct (place_defined (counted t) k v Ht) as [t' Hplace].
  exists t'. rewrite insert_places by done. split; [done|].
  destruct (get_placed (counted t) t' k v k Hplace) as (slot1 & Hslot1 & ->).
  rewrite N.eqb_refl. change (slot_at (counted t)) with (slot_at t) in Hslot1.
  change (total_size (counted t)) with (total_size t) in *.
  rewrite Hslot in Hslot1. injection Hslot1 as <-.
  rewrite slot_get_placed_new by done. split; [done|].
  by apply placed_frame in Hplace as (_ & ? & _ & _ & _ & _ & _ & ->).
Qed.

(** X14.  An insert into the optional-slot table that does not make it grow
    leaves [get] as it was for every key that is not equal to the inserted
    one. *)
Theorem optional_insert_keeps_other_lookups t k v :
  load_exceeded (num_entries (counted t)) (total_size t) = false →
  total_size t ≠ 0 →
  ∃ t', insert t k v = Ret t' ∧
        ∀ k', key_eq k k' = false → get t' k' = get t k'.
Proof.
  intros Hload Ht.
  destruct (place_defined (counted t) k v Ht) as [t' Hplace].
  exists t'. rewrite insert_places by done. split; [done|].
  intros k' Hne.
  destruct (get_placed (counted t) t' k v k' Hplace) as (slot & Hslot & ->).
  change (total_size (counted t)) with (total_size t) in *.
  destruct (N.eqb_spec (std_hash k' mod total_size t) (std_hash k mod total_size t))
    as [Heq|_]; [|done].
  rewrite slot_get_placed_other by done.
  unfold get. rewrite slot_index_Ret by done. simpl. rewrite Heq.
  change (slot_at (counted t)) with (slot_at t) in Hslot. by rewrite Hslot.
Qed.

(** X18.  [grow] returns when the base array is no longer than the new heap
    array: the heap array then has [2 * heap_size + 10] slots, and the base
    size and the count are what they were. *)
Theorem grow_sizes t :
  heap_size t * 2 + 10 < size_max →
  base_size t ≤ heap_size t * 2 + 10 →
  ∃ t', grow t = Ret t' ∧
        base_size t' = base_size t ∧
        heap_size t' = heap_size t * 2 + 10 ∧
        num_entries t' = num_entries t.
Proof. apply grow_defined. Qed.

(** X19.  [grow] writes the node of base slot [i] to slot [i] of the new heap
    array without a bounds check: with an engaged base slot at an index of
    [2 * heap_size + 10] or more, [grow] is undefined, and so is every
    [insert] whose load check sends it into [grow]. *)
Theorem grow_writes_out_of_bounds t (i : N) n :
  heap_size t * 2 + 10 < size_max →
  base_array t !! N.to_nat i = Some (Some n) →
  heap_size t * 2 + 10 ≤ i →
  grow t = Undef ∧
  (∀ k v, load_exceeded (num_entries (counted t)) (total_size t) = true →
          insert t k v = Undef).
Proof.
  intros Hsmall Hn Hi. split; [by eapply grow_out_of_bounds|].
  intros k v Hload. unfold insert. fold (counted t).
  change (total_size (counted t)) with (total_size t). rewrite Hload.
  by rewrite (grow_out_of_bounds (counted t) i n).
Qed.

(** X20.  On a table without heap array [get_constexpr] and [get] agree. *)
Theorem get_constexpr_agrees_with_get t k :
  heap_array t = [] →
  base_size t < size_max →
  get_constexpr t k = get t k.
Proof. apply get_constexpr_get. Qed.

(** X21.  [from_nice_pairs] counts what it places: the table it returns has
    the requested base size, no heap array, and as count the number of pairs
    (as a [size_t]). *)
Theorem from_nice_pairs_counts (size : N) (pairs : list (K * V)) t :
  from_nice_pairs size pairs = Ret t →
  base_size t = size ∧ heap_array t = [] ∧
  num_entries t = wrap (N.of_nat (length pairs)).
Proof.
  unfold from_nice_pairs. intros Hfill.
  destruct (fill_counts pairs (new_table size) t) as [Hcount Hsize]; [done|done|].
  rewrite (fill_keeps_heap _ _ _ Hfill). split_and!; [|done|done].
  rewrite Hsize. unfold base_size, new_table. simpl. rewrite length_replicate. lia.
Qed.

End OptionalProperties.

(** ** The properties at concrete tables *)

Lemma IntKey_moved_null (k : IntKey) : isNull (key_moved k) = isNull k.
Proof. reflexivity. Qed.

Lemma IntKey_distinct (a b : Z) (x : IntKey) :
  a ≠ b → key_eqb x (ik a) = true → key_eqb x (ik b) = false.
Proof.
  destruct x as [x]. simpl. intros Hne ->%Z.eqb_eq. by apply Z.eqb_neq.
Qed.

(** The example tables are what the inserts named in their description
    produce. *)
Lemma example_tables_reached :
  table_after 10 [1; 11]%Z = Ret (Sentinel.state chained_table, []) ∧
  table_after 2 [1]%Z = Ret (Sentinel.state one_key_table, []) ∧
  Optional.from_pairs 10 [(1, 100); (11, 1100)]%Z = Ret optional_chained_table ∧
  Optional.from_pairs 12 [(1, 100); (2, 200); (3, 300); (4, 400); (5, 500);
                          (6, 600); (7, 700); (11, 1100)]%Z
    = Ret optional_wide_table.
Proof. split_and!; evaluate. Qed.

Lemma fresh_table_is_empty_witness :
  isNull (key_init (K := IntKey)) = true ∧ 0 < 10 < size_max ∧
  Sentinel.get (Sentinel.new_table (V := Z) 10) (ik 5) = Ret None ∧
  Sentinel.remove (Sentinel.new_table (V := Z) 10) (ik 5)
    = Ret (Sentinel.new_table 10).
Proof.
  assert (0 < 10 < size_max) as Hsize by (split; reflexivity).
  exact (conj eq_refl (conj Hsize
           (fresh_table_is_empty (V := Z) 10 (ik 5) eq_refl Hsize))).
Defined.

Lemma insert_then_get_witness :
  key_eqb (ik 21) (ik 21) = true ∧ isNull (ik 21) = false ∧
  Sentinel.load_exceeded (Sentinel.counted chained_table) = false ∧
  Sentinel.get chained_table (ik 21) = Ret None ∧
  ∃ t', Sentinel.insert 1 chained_table (ik 21) 2100%Z = Ret (t', []) ∧
        Sentinel.get t' (ik 21) = Ret (Some 2100%Z) ∧
        Sentinel.entryCount t' = 3.
Proof.
  assert (Sentinel.load_exceeded (Sentinel.counted chained_table) = false)
    as Hload by evaluate.
  assert (Sentinel.get chained_table (ik 21) = Ret None) as Hget by evaluate.
  exact (conj eq_refl (conj eq_refl (conj Hload (conj Hget
           (insert_then_get 0%nat chained_table (ik 21) 2100%Z
              eq_refl eq_refl Hload Hget))))).
Defined.


Lemma one_key_table_wf : Sentinel.wf_table one_key_table.
Proof. split; repeat constructor; intros Ho; vm_compute in Ho; congruence. Qed.


Lemma base_size_is_fixed_witness :
  ∃ t' out t'',
    Sentinel.insert 2 one_key_table (ik 7) 700%Z = Ret (t', out) ∧
    Sentinel.BaseSize t' = Sentinel.BaseSize one_key_table ∧
    Sentinel.remove t' (ik 7) = Ret t'' ∧
    Sentinel.BaseSize t'' = Sentinel.BaseSize t' ∧
    Sentinel.heap_length t'' = Sentinel.heap_length t'.
Proof.
  eexists _, _, _. split; [evaluate|].
  split; [apply (proj1 base_size_is_fixed 2%nat one_key_table (ik 7) 700%Z
                  _ ["growing"%string]); evaluate|].
  split; [evaluate|].
  apply (proj2 base_size_is_fixed _ (ik 7)). evaluate.
Defined.

Lemma slots_stay_well_formed_witness :
  (∀ k : IntKey, isNull (key_moved k) = isNull k) ∧
  Sentinel.wf_table one_key_table ∧
  ∃ t' out,
    Sentinel.insert 2 one_key_table (ik 7) 700%Z = Ret (t', out) ∧
    Sentinel.wf_table t'.
Proof.
  refine (conj IntKey_moved_null (conj one_key_table_wf _)).
  eexists _, _. split; [evaluate|].
  apply (proj1 (proj2 (slots_stay_well_formed IntKey_moved_null))
           2%nat one_key_table (ik 7) 700%Z _ ["growing"%string]);
    [exact one_key_table_wf|evaluate].
Defined.


Lemma remove_then_get_witness :
  ∃ n,
    Sentinel.slot_at chained_table
      (hash (ik 11) mod Sentinel.totalSize chained_table) = Ret n ∧
    isNull (key_init (K := IntKey)) = true ∧
    Sentinel.entryCount chained_table ≠ 0 ∧
    Sentinel.totalSize chained_table ≠ 0 ∧
    (Sentinel.chain_count n (ik 11) ≤ 1)%nat ∧
    ∃ t', Sentinel.remove chained_table (ik 11) = Ret t' ∧
          Sentinel.get t' (ik 11) = Ret None ∧
          Sentinel.entryCount t' = 1.
Proof.
  eexists. split; [evaluate|].
  assert (Sentinel.entryCount chained_table ≠ 0) as Hcount by (vm_compute; discriminate).
  assert (Sentinel.totalSize chained_table ≠ 0) as Hsize by (vm_compute; discriminate).
  match goal with |- _ ∧ _ ∧ _ ∧ ?C ∧ _ =>
    assert C as Honce by (vm_compute; lia) end.
  exact (conj eq_refl (conj Hcount (conj Hsize (conj Honce
           (remove_then_get chained_table (ik 11) _ eq_refl Hcount Hsize
              eq_refl Honce))))).
Defined.

Lemma remove_keeps_other_lookups_witness :
  ∃ n,
    Sentinel.slot_at chained_table
      (hash (ik 11) mod Sentinel.totalSize chained_table) = Ret n ∧
    isNull (key_init (K := IntKey)) = true ∧
    (∀ a : IntKey, key_eqb a (ik 11) = true → key_eqb a (ik 1) = false) ∧
    Sentinel.entryCount chained_table ≠ 0 ∧
    Sentinel.totalSize chained_table ≠ 0 ∧
    (key_eqb (Sentinel.key n) (ik 11) = true → (Sentinel.chain_length n ≤ 2)%nat) ∧
    ∃ t', Sentinel.remove chained_table (ik 11) = Ret t' ∧
          Sentinel.get t' (ik 1) = Sentinel.get chained_table (ik 1).
Proof.
  eexists. split; [evaluate|].
  assert (∀ a : IntKey, key_eqb a (ik 11) = true → key_eqb a (ik 1) = false)
    as Hdist by (intros a; by apply IntKey_distinct).
  assert (Sentinel.entryCount chained_table ≠ 0) as Hcount by (vm_compute; discriminate).
  assert (Sentinel.totalSize chained_table ≠ 0) as Hsize by (vm_compute; discriminate).
  match goal with |- _ ∧ _ ∧ _ ∧ _ ∧ ?C ∧ _ =>
    assert C as Hhead by (intros _; vm_compute; lia) end.
  exact (conj eq_refl (conj Hdist (conj Hcount (conj Hsize (conj Hhead
           (remove_keeps_other_lookups chained_table (ik 11) (ik 1) _ eq_refl
              Hdist Hcount Hsize eq_refl Hhead)))))).
Defined.

Lemma copy_keeps_base_and_count_witness :
  Sentinel.heap chained_table = [] ∧
  Sentinel.copy_table chained_table = Ret chained_table.
Proof.
  exact (conj eq_refl (proj2 (copy_keeps_base_and_count chained_table) eq_refl)).
Defined.

Lemma make_table_counts_nothing_witness :
  ∃ t, Sentinel.make_table 10 (entry <$> [1; 2; 3; 4]%Z) = Ret t ∧
       Sentinel.BaseSize t = 10 ∧ Sentinel.heap t = [] ∧ Sentinel.entryCount t = 0.
Proof.
  eexists. split; [evaluate|].
  apply (make_table_counts_nothing 10 (entry <$> [1; 2; 3; 4]%Z)). evaluate.
Defined.

Lemma grown_table_has_no_heap_witness :
  ∃ t',
    Sentinel.insert 2 one_key_table (ik 7) 700%Z = Ret (t', ["growing"%string]) ∧
    ["growing"%string] ≠ [] ∧
    Sentinel.BaseSize t' ≤ hash (ik 2) mod Sentinel.totalSize t' ∧
    Sentinel.entryCount t' ≠ 0 ∧
    Sentinel.load_exceeded (Sentinel.counted t') = false ∧
    Sentinel.heap t' = Sentinel.dangling 4 ∧
    Sentinel.get t' (ik 2) = Undef ∧
    Sentinel.remove t' (ik 2) = Undef ∧
    Sentinel.insert 1 t' (ik 2) 200%Z = Undef.
Proof.
  eexists.
  match goal with |- ?G ∧ _ => assert G as Hins by evaluate end.
  assert (["growing"%string] ≠ []) as Hout by discriminate.
  match goal with |- _ ∧ _ ∧ ?I ∧ ?C ∧ ?L ∧ _ =>
    assert I as Hindex by (vm_compute; discriminate);
    assert C as Hcount by (vm_compute; discriminate);
    assert L as Hload by evaluate end.
  refine (conj Hins (conj Hout (conj Hindex (conj Hcount (conj Hload (conj _ _))))));
    [evaluate|].
  destruct (grown_table_has_no_heap 2%nat one_key_table (ik 7) 700%Z _
              ["growing"%string] Hins Hout) as (_ & Hbehind & _).
  destruct (Hbehind (ik 2) Hindex) as (Hget & Hremove & Hinsert).
  exact (conj Hget (conj (Hremove Hcount) (Hinsert 0%nat 200%Z Hload))).
Defined.

Lemma optional_insert_then_get_witness :
  Optional.key_eq 21%Z 21%Z = true ∧
  Optional.load_exceeded
    (Optional.num_entries (Optional.counted optional_chained_table))
    (Optional.total_size optional_chained_table) = false ∧
  Optional.get optional_chained_table 21%Z = Ret None ∧
  ∃ t', Optional.insert optional_chained_table 21%Z 2100%Z = Ret t' ∧
        Optional.get t' 21%Z = Ret (Some 2100%Z) ∧
        Optional.num_entries t' = 3.
Proof.
  match goal with |- _ ∧ ?L ∧ ?G ∧ _ =>
    assert L as Hload by evaluate; assert G as Hget by evaluate end.
  exact (conj eq_refl (conj Hload (conj Hget
           (optional_insert_then_get optional_chained_table 21%Z 2100%Z
              eq_refl Hload Hget)))).
Defined.

Lemma optional_insert_keeps_other_lookups_witness :
  Optional.load_exceeded
    (Optional.num_entries (Optional.counted optional_chained_table))
    (Optional.total_size optional_chained_table) = false ∧
  Optional.total_size optional_chained_table ≠ 0 ∧
  ∃ t', Optional.insert optional_chained_table 21%Z 2100%Z = Ret t' ∧
        ∀ k', Optional.key_eq 21%Z k' = false →
              Optional.get t' k' = Optional.get optional_chained_table k'.
Proof.
  match goal with |- ?L ∧ _ => assert L as Hload by evaluate end.
  assert (Optional.total_size optional_chained_table ≠ 0) as Hsize
    by (vm_compute; discriminate).
  exact (conj Hload (conj Hsize
           (optional_insert_keeps_other_lookups optional_chained_table 21%Z 2100%Z
              Hload Hsize))).
Defined.

Lemma grow_sizes_witness :
  Optional.heap_size optional_chained_table * 2 + 10 < size_max ∧
  Optional.base_size optional_chained_table
    ≤ Optional.heap_size optional_chained_table * 2 + 10 ∧
  ∃ t', Optional.grow optional_chained_table = Ret t' ∧
        Optional.base_size t' = 10 ∧
        Optional.heap_size t' = 10 ∧
        Optional.num_entries t' = 2.
Proof.
  assert (Optional.heap_size optional_chained_table * 2 + 10 < size_max) as Hsmall
    by reflexivity.
  assert (Optional.base_size optional_chained_table
            ≤ Optional.heap_size optional_chained_table * 2 + 10) as Hbase
    by (vm_compute; discriminate).
  exact (conj Hsmall (conj Hbase (grow_sizes optional_chained_table Hsmall Hbase))).
Defined.

Lemma grow_writes_out_of_bounds_witness :
  Optional.heap_size optional_wide_table * 2 + 10 < size_max ∧
  Optional.base_array optional_wide_table !! N.to_nat 11
    = Some (Some (Optional.mkNode 11%Z 1100%Z None)) ∧
  Optional.heap_size optional_wide_table * 2 + 10 ≤ 11 ∧
  Optional.load_exceeded
    (Optional.num_entries (Optional.counted optional_wide_table))
    (Optional.total_size optional_wide_table) = true ∧
  Optional.grow optional_wide_table = Undef ∧
  Optional.insert optional_wide_table 8%Z 800%Z = Undef.
Proof.
  assert (Optional.heap_size optional_wide_table * 2 + 10 < size_max) as Hsmall
    by reflexivity.
  assert (Optional.heap_size optional_wide_table * 2 + 10 ≤ 11) as Hi
    by (vm_compute; discriminate).
  match goal with |- _ ∧ _ ∧ _ ∧ ?L ∧ _ => assert L as Hload by evaluate end.
  pose proof (grow_writes_out_of_bounds optional_wide_table 11 _ Hsmall eq_refl Hi)
    as [Hgrow Hinsert].
  exact (conj Hsmall (conj eq_refl (conj Hi (conj Hload
           (conj Hgrow (Hinsert 8%Z 800%Z Hload)))))).
Defined.

Lemma get_constexpr_agrees_with_get_witness :
  Optional.heap_array optional_chained_table = [] ∧
  Optional.base_size optional_chained_table < size_max ∧
  Optional.get_constexpr optional_chained_table 11%Z
    = Optional.get optional_chained_table 11%Z.
Proof.
  assert (Optional.base_size optional_chained_table < size_max) as Hsmall
    by reflexivity.
  exact (conj eq_refl (conj Hsmall
           (get_constexpr_agrees_with_get optional_chained_table 11%Z eq_refl Hsmall))).
Defined.

Lemma from_nice_pairs_counts_witness :
  ∃ t, Optional.from_nice_pairs 5 [(1, 100); (2, 200); (3, 300)]%Z = Ret t ∧
       Optional.base_size t = 5 ∧ Optional.heap_array t = [] ∧
       Optional.num_entries t = 3.
Proof.
  eexists. split; [evaluate|].
  apply (from_nice_pairs_counts 5 [(1, 100); (2, 200); (3, 300)]%Z). evaluate.
Defined.
